(** * caskdb: the log-structured store (prior.go) and the queue over it

    A shallow embedding of the Go sources and the properties checked on it.

    Conventions of the embedding.
    - A Go [string] is a Rocq [string]; a Go [[]byte] is a [list ascii]
      ([bytes]); the conversions [[]byte(s)] and [string(b)] are
      [list_ascii_of_string] and [string_of_list_ascii].  Where the source
      tells a nil slice from an empty one the slice is an [option bytes].
    - Go maps are stdpp [gmap]s; a missing key reads as the zero value.  Go
      ranges over a map in an unspecified order: the model ranges in the order
      of [map_to_list], and no statement below depends on that order.
    - A function that can panic returns an [option] ([None] is the panic) or
      an [outcome]; a returned Go [error] is data.
    - Lengths, offsets and the per-file counters live in [Z].  They count
      bytes on disk and entries in memory, far below 2^63, so their
      arithmetic is not wrapped; the queue's [uint64] counters, the
      conversion [int64(pq.MSize)] and the file number of [checkNewBlock]
      can reach the boundary from their inputs and are wrapped.
    - The store's lock, its background goroutines and the clock are left out:
      every operation is run to completion on its own. *)

From Stdlib Require Import ZArith Ascii String List Lia.
From Stdlib Require PrimFloat Uint63.
From stdpp Require Import base option list gmap strings fin_maps.

Local Open Scope Z_scope.

Abbreviation bytes := (list ascii).

(** ** Results *)

Inductive error : Type :=
  | EOF                       (* io.EOF of os.File.Read *)
  | ErrSeek                   (* os.File.Seek to a negative offset *)
  | ErrWrite                  (* a failed os.File.Write *)
  | ErrKeyNotExist1           (* "Key not exist [1]" *)
  | ErrKeyNotExist            (* "Key not exist" *)
  | ErrKeyNotExist2           (* "Key not exist [2]" *)
  | ErrChecksum (h : bytes)   (* "caskdb: failed checksum %s" *)
  | ErrNoMoreRecords          (* ERR_NO_MORE_RECORDS *)
  | ErrRecordInvalid          (* ERR_RECORD_INVALID *)
  | ErrCache.                 (* an error returned by the attached cache *)

Inductive outcome (A : Type) : Type :=
  | Ok (a : A)
  | Err (e : error)
  | Panic.
Arguments Ok {A} a.
Arguments Err {A} e.
Arguments Panic {A}.

#[global] Instance outcome_ret : MRet outcome := fun A a => Ok a.
#[global] Instance outcome_bind : MBind outcome := fun A B f m =>
  match m with
  | Ok a => f a
  | Err e => Err e
  | Panic => Panic
  end.

(** ** Integers of fixed width *)

Definition uint64 (z : Z) : Z := z mod 2 ^ 64.
Definition int64 (z : Z) : Z := (z + 2 ^ 63) mod 2 ^ 64 - 2 ^ 63.

(** ** strconv and fmt *)

Definition code (c : ascii) : Z := Z.of_N (N_of_ascii c).
Definition chr (z : Z) : ascii := ascii_of_N (Z.to_N z).

Definition len (b : bytes) : Z := Z.of_nat (length b).
Definition slen (s : string) : Z := Z.of_nat (String.length s).

(** The digit of [strconv.FormatUint]: "0123456789abcdefghijklmnopqrstuvwxyz". *)
Definition digit_char (d : Z) : ascii :=
  if d <? 10 then chr (48 + d) else chr (87 + d).

(** Digits of [n >= 0] in [base], most significant first.  [fuel] bounds the
    number of digits. *)
Fixpoint digits (fuel : nat) (base n : Z) : bytes :=
  match fuel with
  | O => []
  | S f =>
      (if n <? base then [] else digits f base (n / base))
        ++ [digit_char (n mod base)]
  end.

Definition digits_fuel (n : Z) : nat := S (Z.to_nat (Z.log2 n)).

(** [strconv.FormatUint(n, base)] for [0 <= n]. *)
Definition FormatUint (n base : Z) : string :=
  string_of_list_ascii (digits (digits_fuel n) base n).

(** [fmt.Sprintf("%d", n)]. *)
Definition Sprintf_d (n : Z) : string :=
  if n <? 0
  then String "-" (string_of_list_ascii (digits (digits_fuel (- n)) 10 (- n)))
  else string_of_list_ascii (digits (digits_fuel n) 10 n).

(** [fmt.Sprintf("%10d", n)]: right-justified in ten columns. *)
Definition Sprintf_10d (n : Z) : bytes :=
  let s := list_ascii_of_string (Sprintf_d n) in
  replicate (10 - length s)%nat " "%char ++ s.

(** The value of one digit in [strconv.ParseUint]; letters of both cases. *)
Definition digit_val (c : ascii) : option Z :=
  let n := code c in
  if (48 <=? n) && (n <=? 57) then Some (n - 48)
  else if (97 <=? n) && (n <=? 122) then Some (n - 97 + 10)
  else if (65 <=? n) && (n <=? 90) then Some (n - 65 + 10)
  else None.

Definition maxUint64 : Z := 2 ^ 64 - 1.

(** The loop of [strconv.ParseUint(s, base, 64)] for [2 <= base <= 36], with
    the error dropped: a syntax error gives 0 and an overflow gives
    [maxUint64], whichever comes first from the left. *)
Fixpoint parse_loop (base n : Z) (cs : bytes) : Z :=
  match cs with
  | [] => n
  | c :: cs' =>
      match digit_val c with
      | None => 0
      | Some d =>
          if base <=? d then 0
          else if maxUint64 / base + 1 <=? n then maxUint64
          else
            let n1 := n * base + d in
            if maxUint64 <? n1 then maxUint64 else parse_loop base n1 cs'
      end
  end.

Definition ParseUint (s : string) (base : Z) : Z :=
  parse_loop base 0 (list_ascii_of_string s).

(** [strconv.Atoi] with the error dropped.  The fast path of short inputs and
    [ParseInt(s, 10, 0)] agree: a sign, then decimal digits; a syntax error
    gives 0 and a value out of [int] is clamped. *)
Definition Atoi (b : bytes) : Z :=
  let '(neg, ds) :=
    match b with
    | c :: r =>
        if Ascii.eqb c "+" then (false, r)
        else if Ascii.eqb c "-" then (true, r)
        else (false, b)
    | [] => (false, [])
    end in
  let un := parse_loop 10 0 ds in
  if negb neg && (2 ^ 63 <=? un) then 2 ^ 63 - 1
  else if neg && (2 ^ 63 <? un) then - 2 ^ 63
  else if neg then - un else un.

(** ** hash/crc32 *)

(** CRC-32 with the IEEE polynomial, bit by bit (reflected, 0xedb88320). *)
Definition crc_shift (c : Z) : Z :=
  if Z.testbit c 0 then Z.lxor (Z.shiftr c 1) 0xedb88320 else Z.shiftr c 1.

Definition crc_byte (c : Z) (b : ascii) : Z :=
  Nat.iter 8 crc_shift (Z.lxor c (code b)).

Definition ChecksumIEEE (b : bytes) : Z :=
  Z.lxor (fold_left crc_byte b 0xffffffff) 0xffffffff.

(** ** The record codec *)

Definition MAGICNUMBER : string := "R3C".
Definition RECHEADER : Z := 15.
Definition NUMESPACOS : Z := 2.

Definition makeCheckSum (dat : bytes) : bytes :=
  take 10 (Sprintf_10d (ChecksumIEEE dat)).

(** The content of a slice that may be nil. *)
Definition elems (d : option bytes) : bytes := default [] d.

(** The buffer [Put] builds (prior.go, lines 380-396). *)
Definition encode_rec (key : string) (data : option bytes) : bytes :=
  let LenKey := Sprintf_d (slen key) in
  let SzLenKey := Sprintf_d (slen LenKey) in
  let LenData := Sprintf_d (len (elems data)) in
  let SzLenData := Sprintf_d (slen LenData) in
  list_ascii_of_string MAGICNUMBER
    ++ makeCheckSum (elems data)
    ++ list_ascii_of_string SzLenKey
    ++ list_ascii_of_string SzLenData
    ++ list_ascii_of_string LenKey
    ++ list_ascii_of_string LenData
    ++ list_ascii_of_string " "
    ++ list_ascii_of_string key
    ++ list_ascii_of_string " "
    ++ elems data
    ++ [chr 10].

(** [make([]byte, n)] followed by [FH.Read]: the filled buffer and the count.
    A regular file gives every byte it has up to the size of the buffer; a
    read of no byte at all is [io.EOF], unless the buffer itself is empty.
    [pos] is the position of the handle. *)
Definition read_buf (content : bytes) (pos n : Z) : outcome (bytes * Z) :=
  if n <? 0 then Panic
  else if n =? 0 then Ok ([], 0)
  else
    let got := take (Z.to_nat n) (drop (Z.to_nat pos) content) in
    match got with
    | [] => Err EOF
    | _ => Ok (got ++ replicate (Z.to_nat n - length got)%nat Ascii.zero, len got)
    end.

(** Go's [b[lo:hi]] on a slice whose capacity is its length. *)
Definition subslice (b : bytes) (lo hi : Z) : outcome bytes :=
  if (lo <? 0) || (hi <? lo) || (len b <? hi) then Panic
  else Ok (take (Z.to_nat (hi - lo)) (drop (Z.to_nat lo) b)).

(** [GetOff] on the content of the file the handle is open on
    (prior.go, lines 457-502). *)
Definition decode_at (content : bytes) (offset : Z)
  : outcome (bytes * bytes * Z) :=
  if offset <? 0 then Err ErrSeek
  else
    '(dataHeader, szHeader) ← read_buf content offset RECHEADER;
    let SzLenKey := Atoi (take 1 (drop 13 dataHeader)) in
    let SzLenData := Atoi (take 1 (drop 14 dataHeader)) in
    '(dataLen, szLen) ←
      read_buf content (offset + szHeader) (SzLenKey + SzLenData);
    let LenKey := Atoi (take (Z.to_nat SzLenKey) dataLen) in
    let LenData := Atoi (drop (Z.to_nat SzLenKey) dataLen) in
    let szTotal := LenKey + LenData + NUMESPACOS in
    '(data, szData) ← read_buf content (offset + szHeader + szLen) szTotal;
    let nextOffset := offset + (szHeader + szLen + szData + 1) in
    let posData := LenKey + NUMESPACOS in
    let posKey := LenKey + 1 in
    recData ← subslice data posData (len data);
    if bool_decide (take 10 (drop 3 dataHeader) = makeCheckSum recData)
    then
      key ← subslice data 1 posKey;
      Ok (key, recData, nextOffset)
    else Err (ErrChecksum (take 10 (drop 3 dataHeader))).

(** ** The data directory *)

(** What becomes of one [os.File.Write]: all of the buffer, or an error after
    [n] of its bytes. *)
Inductive wout : Type :=
  | WriteOk
  | WriteFail (n : nat).

(** The files of [Dir] and of [Dir/.bkp] by name.  [faults] tells how the
    writes to come end, in order; past its end every write succeeds.  [wlog]
    is a history: what each write so far has put at the end of which file,
    oldest first. *)
Record Disk : Type := mkDisk {
  files : gmap string bytes;
  bkp : gmap string bytes;
  faults : list wout;
  wlog : list (string * bytes)
}.

Definition content (d : Disk) (name : string) : bytes :=
  default [] (files d !! name).

(** [FH.Write(buf)] on a handle opened with [O_APPEND] on [Dir/name]. *)
Definition file_write (d : Disk) (name : string) (buf : bytes)
  : Disk * option error :=
  match faults d with
  | WriteFail n :: rest =>
      (mkDisk (<[name := content d name ++ take n buf]> (files d)) (bkp d)
         rest (wlog d ++ [(name, take n buf)]),
       Some ErrWrite)
  | _ =>
      (mkDisk (<[name := content d name ++ buf]> (files d)) (bkp d)
         (tail (faults d)) (wlog d ++ [(name, buf)]),
       None)
  end.

(** [os.Rename(Dir/k, Dir/.bkp/k)]; its error is dropped by the caller. *)
Definition move_to_bkp (d : Disk) (k : string) : Disk :=
  match files d !! k with
  | Some c => mkDisk (delete k (files d)) (<[k := c]> (bkp d)) (faults d) (wlog d)
  | None => d
  end.

(** ** The store *)

Definition BKPFOLDER : string := ".bkp".
Definition MAXSIZE : Z := 100000000.

(** [Offset] is a [*int64] in the source; it is never nil. *)
Record Rec : Type := mkRec { File : string; Offset : Z }.

(** [PQ].  [pqFile] is the field [File] (the current file).  [PoolFH] holds
    the names that have an open handle: the handle under [k] was opened on
    [Dir/k], and [FileTime] is never read.  A nil [keysReallocate] is the
    empty list. *)
Record PQ : Type := mkPQ {
  disk : Disk;
  pqFile : string;
  MSize : Z;
  PoolFH : gset string;
  Key : gmap string Rec;
  CountFile : gmap string Z;
  CurOffset : Z;
  lastOldKey : string;
  keysReallocate : list string;
  clearStarted : bool
}.

(** [countF[k]++] and [countF[k]--]. *)
Definition count (m : gmap string Z) (k : string) : Z := default 0 (m !! k).
Definition incr (k : string) (m : gmap string Z) : gmap string Z :=
  <[k := count m k + 1]> m.
Definition decr (k : string) (m : gmap string Z) : gmap string Z :=
  <[k := count m k - 1]> m.

Definition MaxSize (pq : PQ) (m : Z) : PQ :=
  mkPQ (disk pq) (pqFile pq) m (PoolFH pq) (Key pq) (CountFile pq)
    (CurOffset pq) (lastOldKey pq) (keysReallocate pq) (clearStarted pq).

(** [Open]: [O_CREATE] makes the file when it is not there. *)
Definition Open (pq : PQ) : PQ :=
  let d := disk pq in
  let d' :=
    match files d !! pqFile pq with
    | Some _ => d
    | None => mkDisk (<[pqFile pq := []]> (files d)) (bkp d) (faults d) (wlog d)
    end in
  mkPQ d' (pqFile pq) (MSize pq) ({[pqFile pq]} ∪ PoolFH pq) (Key pq)
    (CountFile pq) (CurOffset pq) (lastOldKey pq) (keysReallocate pq)
    (clearStarted pq).

(** [GetOff]: [pool[file].FH] of a name without a handle is a nil
    dereference. *)
Definition GetOff (pq : PQ) (offset : Z) (file : string)
  : outcome (bytes * bytes * Z) :=
  if bool_decide (file ∈ PoolFH pq)
  then decode_at (content (disk pq) file) offset
  else Panic.

Definition Get (pq : PQ) (key : string) : outcome bytes :=
  match Key pq !! key with
  | None => Err ErrKeyNotExist2
  | Some r =>
      '(_, data, _) ← GetOff pq (Offset r) (File r);
      Ok data
  end.

(** *** Start *)

(** The variables of the loop of [Start]. *)
Record Scan : Type := mkScan {
  curoffset : Z;
  memkey : gmap string Rec;
  countF : gmap string Z;
  block_keys : gmap string bool;
  total_keys : Z;
  lastKey : string
}.

(** One turn of the loop after a record was read at [curoffset]
    (prior.go, lines 252-276). *)
Definition scan_record (f : string) (s : Scan) (key data : bytes) (offset : Z)
  : Scan :=
  let skey := string_of_list_ascii key in
  if 0 <? len data then
    mkScan offset
      (<[skey := mkRec f (curoffset s)]> (memkey s))
      (incr f
         match memkey s !! skey with
         | None => countF s
         | Some r => decr (File r) (countF s)
         end)
      (<[skey := true]> (block_keys s))
      (total_keys s + 1)
      skey
  else
    match memkey s !! skey with
    | Some r =>
        mkScan offset (delete skey (memkey s)) (decr (File r) (countF s))
          (<[skey := false]> (block_keys s)) (total_keys s) skey
    | None =>
        mkScan offset (memkey s) (countF s) (block_keys s) (total_keys s) skey
    end.

(** The loop of [Start] over the file [f] of [pq].  It leaves at the first
    read that fails; a key that is nil never comes with a nil error.  [None]
    is a panic of [GetOff]; it also stands for [fuel] running out, which
    [Start] rules out by the fuel it gives (lemma [scan_fuel] below). *)
Fixpoint scan (fuel : nat) (pq : PQ) (f : string) (s : Scan) : option Scan :=
  match fuel with
  | O => None
  | S n =>
      match GetOff pq (curoffset s) f with
      | Panic => None
      | Err _ => Some s
      | Ok (key, data, offset) => scan n pq f (scan_record f s key data offset)
      end
  end.

Definition float64 (z : Z) : PrimFloat.float :=
  PrimFloat.of_uint63 (Uint63.of_Z z).

Import (notations) PrimFloat.

(** The constant 0.1 as a [float64]: the double nearest to one tenth. *)
#[warnings="-inexact-float"]
Definition MIN_ACTIVE_KEYS_SHARE : PrimFloat.float := 0.1%float.

(** [float64(count_active_keys) / float64(total_keys) < MIN_ACTIVE_KEYS_SHARE]. *)
Definition low_share (count_active_keys total : Z) : bool :=
  PrimFloat.ltb (PrimFloat.div (float64 count_active_keys) (float64 total))
    MIN_ACTIVE_KEYS_SHARE.

(** The keys of [block_keys] that are marked true. *)
Definition active_keys (block : gmap string bool) : list string :=
  (filter (λ kb : string * bool, kb.2 = true) (map_to_list block)).*1.

Definition set_File (pq : PQ) (f : string) : PQ :=
  mkPQ (disk pq) f (MSize pq) (PoolFH pq) (Key pq) (CountFile pq)
    (CurOffset pq) (lastOldKey pq) (keysReallocate pq) (clearStarted pq).

(** [Start].  [os.OpenFile] failing is not modelled, so the error returned is
    always nil; [None] is a panic. *)
Definition Start (pq : PQ) (f : string) : option PQ :=
  let pq1 := Open (set_File pq f) in
  s ← scan (S (length (content (disk pq1) f))) pq1 f
         (mkScan 0 (Key pq1) (CountFile pq1) ∅ 0 (lastOldKey pq1));
  let count_active_keys := Z.of_nat (length (active_keys (block_keys s))) in
  Some (mkPQ (disk pq1) f (MSize pq1) (PoolFH pq1) (memkey s) (countF s)
          (curoffset s) (lastKey s)
          (if low_share count_active_keys (total_keys s)
           then keysReallocate pq1 ++ active_keys (block_keys s)
           else keysReallocate pq1)
          (clearStarted pq1)).

(** [checkNewBlock]; the result of [Start] is dropped by the source. *)
Definition checkNewBlock (pq : PQ) : option PQ :=
  if int64 (MSize pq) <? CurOffset pq then
    let numFile := Atoi (list_ascii_of_string (pqFile pq)) in
    let nextFile := int64 (numFile + 1) in
    Start pq (Sprintf_d nextFile)
  else Some pq.

(** *** Garbage *)

(** The body of the loop of [checkGarbage] for a file [k] that is not the
    current one and counts no record: the counter and the handle go, the file
    moves to the backup folder.  The compressor runs outside. *)
Definition collect (pq : PQ) (k : string) : PQ :=
  mkPQ (move_to_bkp (disk pq) k) (pqFile pq) (MSize pq) (PoolFH pq ∖ {[k]})
    (Key pq) (delete k (CountFile pq)) (CurOffset pq) (lastOldKey pq)
    (keysReallocate pq) (clearStarted pq).

Definition garbage_of (pq : PQ) : list string :=
  (filter (λ kv : string * Z, kv.1 ≠ pqFile pq ∧ kv.2 = 0)
     (map_to_list (CountFile pq))).*1.

Definition checkGarbage (pq : PQ) : PQ :=
  foldl collect pq (garbage_of pq).

(** *** Put *)

(** A [[]byte] argument: nil, or elements with some capacity to spare. *)
Inductive slice : Type :=
  | nil_slice
  | mk_slice (elts : bytes) (spare : nat).

(** [shrinkByteSlice]: a slice with capacity to spare is copied through a
    [bytes.Buffer]; the [Bytes()] of a buffer that got nothing is nil.  What
    is left to tell is whether the slice is nil and what it holds. *)
Definition shrinkByteSlice (d : slice) : option bytes :=
  match d with
  | nil_slice => None
  | mk_slice l O => Some l
  | mk_slice l (S _) => match l with [] => None | _ => Some l end
  end.

(** [Put] from [defer pq.Unlock()] on (prior.go, lines 373-431), on the
    argument as [shrinkByteSlice] left it. *)
Definition put_record (pq : PQ) (key : string) (data : option bytes)
  : option (PQ * option error) :=
  match data, Key pq !! key with
  | None, None => Some (pq, Some ErrKeyNotExist)
  | _, old =>
      let buf := encode_rec key data in
      let offtemp := CurOffset pq in
      let target :=
        match data, old with
        | None, Some r => File r
        | _, _ => pqFile pq
        end in
      if bool_decide (target ∈ PoolFH pq) then
        let '(d, err) := file_write (disk pq) target buf in
        let cur :=
          match data, old with
          | Some _, _ => CurOffset pq + len buf
          | None, Some r =>
              if bool_decide (File r = pqFile pq)
              then CurOffset pq + len buf else CurOffset pq
          | None, None => CurOffset pq
          end in
        match err with
        | Some e =>
            Some (mkPQ d (pqFile pq) (MSize pq) (PoolFH pq) (Key pq)
                    (CountFile pq) cur (lastOldKey pq) (keysReallocate pq)
                    (clearStarted pq), Some e)
        | None =>
            let '(k, c) :=
              match data, old with
              | Some _, Some r =>
                  (<[key := mkRec (pqFile pq) offtemp]> (Key pq),
                   incr (pqFile pq) (decr (File r) (CountFile pq)))
              | Some _, None =>
                  (<[key := mkRec (pqFile pq) offtemp]> (Key pq),
                   incr (pqFile pq) (CountFile pq))
              | None, Some r =>
                  (delete key (Key pq), decr (File r) (CountFile pq))
              | None, None => (Key pq, CountFile pq)
              end in
            Some (mkPQ d (pqFile pq) (MSize pq) (PoolFH pq) k c cur
                    (lastOldKey pq) (keysReallocate pq) (clearStarted pq),
                  None)
        end
      else None
  end.

(** Does [Put] first call itself with nil data (prior.go, line 367)? *)
Definition moves_away (pq : PQ) (key : string) (data : option bytes) : bool :=
  match data, Key pq !! key with
  | Some _, Some r => bool_decide (File r ≠ pqFile pq)
  | _, _ => false
  end.

(** [Put].  The call [pq.Put(key, nil)] it makes passes the two tests at the
    top and runs [put_record] once; its error is dropped. *)
Definition Put (pq : PQ) (key : string) (d : slice)
  : option (PQ * option error) :=
  let data := shrinkByteSlice d in
  if bool_decide (key = "") then Some (pq, Some ErrKeyNotExist1)
  else
    pq1 ← (if moves_away pq key data
           then fst <$> put_record pq key None
           else Some pq);
    put_record pq1 key data.

(** *** Reallocate *)

(** The body of the loop of [Reallocate] for one key. *)
Definition reallocate_key (pq : PQ) (key : string)
  : option (PQ * option error) :=
  match Key pq !! key with
  | Some r =>
      if bool_decide (File r ≠ pqFile pq) then
        match Get pq key with
        | Panic => None
        | Err _ => Some (pq, None)
        | Ok rec =>
            '(pq1, err) ← Put pq key (mk_slice rec 0);
            match err with
            | Some e => Some (pq1, Some e)
            | None => pq2 ← checkNewBlock pq1; Some (pq2, None)
            end
        end
      else Some (pq, None)
  | None => Some (pq, None)
  end.

Fixpoint reallocate_loop (pq : PQ) (keys : list string)
  : option (PQ * option error) :=
  match keys with
  | [] => Some (pq, None)
  | key :: rest =>
      '(pq1, err) ← reallocate_key pq key;
      match err with
      | Some e => Some (pq1, Some e)
      | None => reallocate_loop pq1 rest
      end
  end.

Definition clear_keysReallocate (pq : PQ) : PQ :=
  mkPQ (disk pq) (pqFile pq) (MSize pq) (PoolFH pq) (Key pq) (CountFile pq)
    (CurOffset pq) (lastOldKey pq) [] (clearStarted pq).

Definition Reallocate (pq : PQ) : option (PQ * option error) :=
  '(pq1, err) ← reallocate_loop pq (keysReallocate pq);
  match err with
  | Some e => Some (pq1, Some e)
  | None => Some (checkGarbage (clear_keysReallocate pq1), None)
  end.

(** *** New *)

(** Insertion by [strconv.Atoi] of the name, the order of [byInt]. *)
Fixpoint insert_by_int (x : string) (l : list string) : list string :=
  match l with
  | [] => [x]
  | y :: r =>
      if Atoi (list_ascii_of_string y) <? Atoi (list_ascii_of_string x)
      then y :: insert_by_int x r else x :: l
  end.

(** The names of the regular files of [Dir] as [ReadDir] sorts them; the
    backup folder, which the listing of the source also holds, is dropped by
    the caller. *)
Definition ReadDir (d : Disk) : list string :=
  foldr insert_by_int [] (map_to_list (files d)).*1.

Definition initPQ (d : Disk) : PQ :=
  mkPQ d "1" MAXSIZE ∅ ∅ ∅ 0 "" [] false.

Fixpoint start_all (pq : PQ) (names : list string) : option PQ :=
  match names with
  | [] => Some pq
  | f :: rest => pq1 ← Start pq f; start_all pq1 rest
  end.

(** [New] on a directory; [os.MkdirAll] failing is not modelled.  With an
    error from [Reallocate] the caller gets no store. *)
Definition New (d : Disk) : outcome PQ :=
  let pq := initPQ d in
  let files := filter (λ f, f ≠ BKPFOLDER) (ReadDir d) in
  match (match files with
         | [] => Start pq "1"
         | _ => start_all pq files
         end) with
  | None => Panic
  | Some pq1 =>
      match Reallocate pq1 with
      | None => Panic
      | Some (_, Some e) => Err e
      | Some (pq2, None) => Ok pq2
      end
  end.

(** *** Listing *)

Definition ListAllKeys (pq : PQ) : list string :=
  (map_to_list (Key pq)).*1.





Definition IsKey (pq : PQ) (key : string) : bool :=
  bool_decide (is_Some (Key pq !! key)).

(** ** The queue *)

Definition KEYS_BASE : Z := 16.

(** The linked list of the records found on disk; [next] may be nil. *)
#[warnings="-register-all"]
Inductive ll_OldRecords : Type :=
  | mk_ll (id : string) (next : option ll_OldRecords).

Definition ll_id (o : ll_OldRecords) : string :=
  match o with mk_ll i _ => i end.
Definition ll_next (o : ll_OldRecords) : option ll_OldRecords :=
  match o with mk_ll _ n => n end.

(** [Walk]: the node takes the place of its successor. *)
Definition Walk (this : ll_OldRecords) : ll_OldRecords * bool :=
  match ll_next this with
  | Some n => (mk_ll (ll_id n) (ll_next n), true)
  | None => (this, false)
  end.

(** An [interface{}] as a cache hands it back: nil, a [[]byte], or a value
    of another type. *)
Inductive iface : Type :=
  | i_nil
  | i_bytes (b : slice)
  | i_other.

(** [ICache], on a cache whose state is a [C]. *)
Class ICache (C : Type) : Type := {
  cache_Add : C → slice → Z → string → C * option error;
  cache_Delete : C → string → C * option error;
  cache_Retrieve : C → string → C * iface * option error;
  cache_Count : C → Z;
  cache_Success : C → Z
}.

Record SQueue (C : Type) : Type := mkSQueue {
  pq : PQ;
  max : Z;
  current : Z;
  countDisk : Z;
  countRead : Z;
  countDeleted : Z;
  oldRecs : option ll_OldRecords;
  oldRecsCount : Z;
  useLinkedList : bool;
  cache : option C;
  ttl : Z
}.
Arguments mkSQueue {C}.
Arguments pq {C}.
Arguments max {C}.
Arguments current {C}.
Arguments countDisk {C}.
Arguments countRead {C}.
Arguments countDeleted {C}.
Arguments oldRecs {C}.
Arguments oldRecsCount {C}.
Arguments useLinkedList {C}.
Arguments cache {C}.
Arguments ttl {C}.

(** One pass of the inner loop of [bubbleSort], with [x] the element at
    [i-1]; the flag tells whether a swap took place. *)
Fixpoint bubble_pass (x : Z) (l : list Z) : list Z * bool :=
  match l with
  | [] => ([x], false)
  | y :: r =>
      if y <? x
      then let '(l', _) := bubble_pass x r in (y :: l', true)
      else let '(l', sw) := bubble_pass y r in (x :: l', sw)
  end.

(** [passes] turns of the outer loop, left early after a pass without swap. *)
Fixpoint bubble_loop (passes : nat) (d : list Z) : list Z :=
  match passes, d with
  | S n, x :: r =>
      let '(d', swapped) := bubble_pass x r in
      if swapped then bubble_loop n d' else d'
  | _, _ => d
  end.

Definition bubbleSort (d : list Z) : list Z :=
  bubble_loop (length d - 1) d.

(** The list [Init] links from the sorted numbers. *)
Fixpoint link (first : Z) (rest : list Z) : ll_OldRecords :=
  mk_ll (FormatUint first KEYS_BASE)
    match rest with
    | [] => None
    | x :: r => Some (link x r)
    end.

Section Queue.
Context {C : Type} `{ICache C}.

(** [new(SQueue)]. *)
Definition zeroSQueue (d : Disk) : SQueue C :=
  mkSQueue (initPQ d) 0 0 0 0 0 None 0 false None 0.

(** [Init] on the directory [d]; the store of the receiver is replaced. *)
Definition Init (this : SQueue C) (d : Disk) : outcome (SQueue C) :=
  p ← New d;
  let currentKeys := ListAllKeys p in
  let m :=
    if bool_decide (lastOldKey p ≠ "")
    then ParseUint (lastOldKey p) KEYS_BASE else 0 in
  let remainningRecords := (λ k, ParseUint k KEYS_BASE) <$> currentKeys in
  let n := Z.of_nat (length remainningRecords) in
  let '(o, u) :=
    match bubbleSort remainningRecords with
    | [] => (oldRecs this, false)
    | x :: r => (Some (link x r), true)
    end in
  Ok (mkSQueue p m m (uint64 n) 0 0 o (uint64 (oldRecsCount this + n)) u
        (cache this) (ttl this)).

Definition NewSQueue (d : Disk) : outcome (SQueue C) :=
  Init (zeroSQueue d) d.

Definition set_pq (q : SQueue C) (p : PQ) : SQueue C :=
  mkSQueue p (max q) (current q) (countDisk q) (countRead q)
    (countDeleted q) (oldRecs q) (oldRecsCount q) (useLinkedList q)
    (cache q) (ttl q).

Definition set_cache (q : SQueue C) (c : C) : SQueue C :=
  mkSQueue (pq q) (max q) (current q) (countDisk q) (countRead q)
    (countDeleted q) (oldRecs q) (oldRecsCount q) (useLinkedList q)
    (Some c) (ttl q).

Definition getNextReadKey (q : SQueue C) : SQueue C * string * option error :=
  if current q <? max q then
    let c := uint64 (current q + 1) in
    (mkSQueue (pq q) (max q) c (countDisk q) (countRead q) (countDeleted q)
       (oldRecs q) (oldRecsCount q) (useLinkedList q) (cache q) (ttl q),
     FormatUint c KEYS_BASE, None)
  else (q, "", Some ErrNoMoreRecords).

Definition getNextWriteKey (q : SQueue C) : SQueue C * string :=
  let m := uint64 (max q + 1) in
  (mkSQueue (pq q) m (current q) (countDisk q) (countRead q)
     (countDeleted q) (oldRecs q) (oldRecsCount q) (useLinkedList q)
     (cache q) (ttl q),
   FormatUint m KEYS_BASE).

Definition Push (q : SQueue C) (rec : slice)
  : option (SQueue C * option error) :=
  let q0 :=
    mkSQueue (pq q) (max q) (current q) (uint64 (countDisk q + 1))
      (countRead q) (countDeleted q) (oldRecs q) (oldRecsCount q)
      (useLinkedList q) (cache q) (ttl q) in
  let '(q1, key) := getNextWriteKey q0 in
  let '(q2, err) :=
    match cache q1 with
    | Some c =>
        let '(c', err) := cache_Add c rec (ttl q1) key in
        (set_cache q1 c', err)
    | None => (q1, None)
    end in
  match err with
  | Some e => Some (q2, Some e)
  | None =>
      '(p, err) ← Put (pq q2) key rec;
      Some (set_pq q2 p, err)
  end.

(** The loop of [refresh] from [i] on, [n] turns. *)
Fixpoint refresh_loop (n : nat) (p : PQ) (t ikey i : Z) (c : C) : option C :=
  match n with
  | O => Some c
  | S n' =>
      let key := FormatUint (uint64 (ikey + i)) KEYS_BASE in
      match Get p key with
      | Panic => None
      | Err _ => refresh_loop n' p t ikey (i + 1) c
      | Ok rec =>
          if len rec =? 0 then refresh_loop n' p t ikey (i + 1) c
          else
            refresh_loop n' p t ikey (i + 1)
              (cache_Add c (mk_slice rec 0) t key).1
      end
  end.

Definition refresh (q : SQueue C) (c : C) (currentReadKey : string)
  : option C :=
  let ikey := ParseUint currentReadKey KEYS_BASE in
  refresh_loop (Z.to_nat 200000) (pq q) (ttl q) ikey 0 c.

(** [retrieve]: the record (nil with an error) and the error. *)
Definition retrieve (q : SQueue C) (key : string)
  : option (SQueue C * slice * option error) :=
  let from_store (q' : SQueue C) :=
    match Get (pq q') key with
    | Panic => None
    | Err e => Some (q', nil_slice, Some e)
    | Ok data => Some (q', mk_slice data 0, None)
    end in
  match cache q with
  | None => from_store q
  | Some c =>
      let '(c1, i, err) := cache_Retrieve c key in
      match err with
      | Some e => Some (set_cache q c1, nil_slice, Some e)
      | None =>
          r ← (match i with
               | i_nil =>
                   c2 ← refresh q c1 key;
                   let '(c3, i', _) := cache_Retrieve c2 key in
                   Some (c3, i')
               | _ => Some (c1, i)
               end);
          match r.2 with
          | i_bytes b => Some (set_cache q r.1, b, None)
          | _ => from_store (set_cache q r.1)
          end
      end
  end.

(** The end of [Pop] (lines 255-260). *)
Definition pop_done (q : SQueue C) (rec : slice) (rKey : string)
  : SQueue C * (slice * string * bool * option error) :=
  (mkSQueue (pq q) (max q) (current q) (uint64 (countDisk q - 1))
     (uint64 (countRead q + 1)) (countDeleted q) (oldRecs q)
     (oldRecsCount q) (useLinkedList q) (cache q) (ttl q),
   (rec, rKey, bool_decide (max q = current q), None)).

(** [Pop]: the record, its key, [empty] and the error. *)
Definition Pop (q : SQueue C)
  : option (SQueue C * (slice * string * bool * option error)) :=
  if useLinkedList q then
    match oldRecs q with
    | None => None
    | Some o =>
        let rKey := ll_id o in
        '(q1, rec, err) ← retrieve q rKey;
        match err with
        | Some e => Some (q1, (rec, rKey, false, Some e))
        | None =>
            let '(o', walked) := Walk o in
            let q2 :=
              mkSQueue (pq q1) (max q1) (current q1) (countDisk q1)
                (countRead q1) (countDeleted q1)
                (if walked then Some o' else None)
                (uint64 (oldRecsCount q1 - 1))
                (if walked then useLinkedList q1 else false)
                (cache q1) (ttl q1) in
            Some (pop_done q2 rec rKey)
        end
    end
  else
    let '(q1, rKey, err) := getNextReadKey q in
    let empty := bool_decide (max q1 = current q1) in
    match err with
    | Some e => Some (q1, (nil_slice, rKey, empty, Some e))
    | None =>
        '(q2, rec, err) ← retrieve q1 rKey;
        match err with
        | Some e => Some (q2, (rec, rKey, empty, Some e))
        | None => Some (pop_done q2 rec rKey)
        end
    end.

Definition Delete (q : SQueue C) (k : string)
  : option (SQueue C * option error) :=
  let q1 :=
    match cache q with
    | Some c => set_cache q (cache_Delete c k).1
    | None => q
    end in
  if IsKey (pq q1) k then
    let q2 :=
      mkSQueue (pq q1) (max q1) (current q1) (countDisk q1) (countRead q1)
        (uint64 (countDeleted q1 + 1)) (oldRecs q1) (oldRecsCount q1)
        (useLinkedList q1) (cache q1) (ttl q1) in
    '(p, err) ← Put (pq q2) k nil_slice;
    Some (set_pq q2 p, err)
  else Some (q1, Some ErrRecordInvalid).
End Queue.

(** ** Auxiliary notions for the statements *)

(** A record as [Put] lays it out, with any bytes in the place of the magic
    number and of the checksum. *)
Definition frame (magic sum : bytes) (key : string) (v : bytes) : bytes :=
  let LenKey := Sprintf_d (slen key) in
  let SzLenKey := Sprintf_d (slen LenKey) in
  let LenData := Sprintf_d (len v) in
  let SzLenData := Sprintf_d (slen LenData) in
  magic ++ sum
    ++ list_ascii_of_string SzLenKey
    ++ list_ascii_of_string SzLenData
    ++ list_ascii_of_string LenKey
    ++ list_ascii_of_string LenData
    ++ list_ascii_of_string " "
    ++ list_ascii_of_string key
    ++ list_ascii_of_string " "
    ++ v
    ++ [chr 10].

(** The length of a record by the formula of the format: the header, the two
    length fields, the key, the value, two spaces and the newline. *)
Definition record_length (key : string) (v : bytes) : Z :=
  15 + slen (Sprintf_d (slen key)) + slen (Sprintf_d (len v))
  + slen key + len v + 3.

(** The sum over the files of the count of live records. *)
Definition sum_counts (m : gmap string Z) : Z :=
  map_fold (λ _ v acc, v + acc) 0 m.

(** The invariant of the data model: the counts add up to the size of the
    index. *)
Definition counts_match (pq : PQ) : Prop :=
  sum_counts (CountFile pq) = Z.of_nat (size (Key pq)).

(** The states of a store: what [New] returns, and what the operations make
    of it, each run on its own.  [Delete] is [Put] with nil data; the ticks of
    [Rotate] and [Garbage] are [checkNewBlock] and [checkGarbage]. *)
Inductive reachable : PQ → Prop :=
  | reach_New d pq :
      New d = Ok pq → reachable pq
  | reach_Put pq key data pq' err :
      reachable pq → Put pq key data = Some (pq', err) → reachable pq'
  | reach_Start pq f pq' :
      reachable pq → Start pq f = Some pq' → reachable pq'
  | reach_Rotate pq pq' :
      reachable pq → checkNewBlock pq = Some pq' → reachable pq'
  | reach_Reallocate pq pq' err :
      reachable pq → Reallocate pq = Some (pq', err) → reachable pq'
  | reach_Garbage pq :
      reachable pq → reachable (checkGarbage pq)
  | reach_MaxSize pq m :
      reachable pq → reachable (MaxSize pq m).

(** An empty directory on a device without faults, and byte slices from
    literals, for the examples. *)
Definition empty_disk : Disk := mkDisk ∅ ∅ [] [].
Definition bs (s : string) : slice := mk_slice (list_ascii_of_string s) 0.



(** The state a call leaves, for the examples (the state itself on a panic). *)
Definition after (pq : PQ) (r : option (PQ * option error)) : PQ :=
  match r with Some (pq', _) => pq' | None => pq end.

(** A store opened on an empty directory. *)
Definition demo0 : PQ :=
  match New empty_disk with Ok pq => pq | _ => initPQ empty_disk end.

(** Three keys put into it. *)
Definition demo3 : PQ :=
  let pq1 := after demo0 (Put demo0 "a" (bs "1")) in
  let pq2 := after pq1 (Put pq1 "ab" (bs "2")) in
  after pq2 (Put pq2 "b" (bs "3")).

(** A store whose key "k" lies in file "1" while the current file is "2":
    one record put, the size limit lowered, one tick of the rotation. *)
Definition demo_rotated : PQ :=
  let pq1 := after demo0 (Put demo0 "k" (bs "v")) in
  default pq1 (checkNewBlock (MaxSize pq1 1)).



(** The records that decode one after the other in a file of content [c],
    from the offset [o] up to the offset [o']: the key, the value and the
    next offset of each. *)
Inductive decodes (c : bytes) : Z → list (bytes * bytes * Z) → Z → Prop :=
  | decodes_nil o : decodes c o [] o
  | decodes_cons o k v n recs o' :
      decode_at c o = Ok (k, v, n) → decodes c n recs o' →
      decodes c o ((k, v, n) :: recs) o'.

(** The loop of [Start] run over records already read. *)
Definition replay (f : string) (s : Scan) (recs : list (bytes * bytes * Z))
  : Scan :=
  foldl (λ s '(k, v, n), scan_record f s k v n) s recs.

(** The same store with [c] for the content of the file [f]. *)
Definition set_content (pq : PQ) (f : string) (c : bytes) : PQ :=
  mkPQ (mkDisk (<[f := c]> (files (disk pq))) (bkp (disk pq))
          (faults (disk pq)) (wlog (disk pq)))
    (pqFile pq) (MSize pq) (PoolFH pq) (Key pq) (CountFile pq) (CurOffset pq)
    (lastOldKey pq) (keysReallocate pq) (clearStarted pq).

(** The variables of the loop of [Start] as it enters the loop. *)
Definition scan_init (pq : PQ) : Scan :=
  mkScan 0 (Key pq) (CountFile pq) ∅ 0 (lastOldKey pq).

(** The state [Start] leaves once the loop has ended with [s]. *)
Definition start_result (pq1 : PQ) (f : string) (s : Scan) : PQ :=
  mkPQ (disk pq1) f (MSize pq1) (PoolFH pq1) (memkey s) (countF s)
    (curoffset s) (lastKey s)
    (if low_share (Z.of_nat (length (active_keys (block_keys s))))
          (total_keys s)
     then keysReallocate pq1 ++ active_keys (block_keys s)
     else keysReallocate pq1)
    (clearStarted pq1).


(** The store holds the map [m]: the current file has a handle and
    [CurOffset] is its length, the index has the keys of [m], and the entry
    of each key points, in a file with a handle, at a whole record that
    decodes to the key and to its value in [m]. *)
Definition holds (pq : PQ) (m : gmap string bytes) : Prop :=
  pqFile pq ∈ PoolFH pq
  ∧ CurOffset pq = len (content (disk pq) (pqFile pq))
  ∧ ∀ k,
      match Key pq !! k with
      | Some r =>
          File r ∈ PoolFH pq
          ∧ ∃ v n,
              m !! k = Some v
              ∧ decode_at (content (disk pq) (File r)) (Offset r)
                = Ok (list_ascii_of_string k, v, n)
              ∧ n ≤ len (content (disk pq) (File r))
      | None => m !! k = None
      end.

(** [demo_rotated] after its key was put again: the record lies in file "2"
    and file "1" counts no live record. *)
Definition demo_moved : PQ :=
  after demo_rotated (Put demo_rotated "k" (bs "w")).

(** The number of entries of the index that lie in the file [f]. *)
Definition live_in (idx : gmap string Rec) (f : string) : Z :=
  Z.of_nat (size (filter (λ kr : string * Rec, File kr.2 = f) idx)).

(** Every count is the number of entries of the index in its file. *)
Definition counted (pq : PQ) : Prop :=
  ∀ f, count (CountFile pq) f = live_in (Key pq) f.

(** The current file and the file of every entry of the index have a handle
    in the pool. *)
Definition handled (pq : PQ) : Prop :=
  pqFile pq ∈ PoolFH pq
  ∧ ∀ k r, Key pq !! k = Some r → File r ∈ PoolFH pq.

(** The keys of the index whose record lies in the file [f]. *)
Definition live_keys (idx : gmap string Rec) (f : string) : list string :=
  (map_to_list (filter (λ kr : string * Rec, File kr.2 = f) idx)).*1.

(** The number of records with data (records that are no deletion) among
    [recs]. *)
Definition puts_in (recs : list (bytes * bytes * Z)) : Z :=
  Z.of_nat (length (filter (λ r : bytes * bytes * Z, 0 < len r.1.2) recs)).

(** [p] on the [n] integers from [z] on. *)
Fixpoint all_from (z : Z) (n : nat) (p : Z → bool) : bool :=
  match n with
  | O => true
  | S n' => p z && all_from (z + 1) n' p
  end.

(** The test of [Start] against the quotient taken exactly, on all pairs of
    counts below [bound]. *)
Definition tenth_agrees (bound : nat) : bool :=
  all_from 0 bound (λ t, all_from 0 bound (λ a,
    Bool.eqb (low_share a t) ((0 <? t) && (10 * a <? t)))).

(** A directory whose file "1" holds the key "a" written eleven times. *)
Definition crowded_disk : Disk :=
  mkDisk {["1" := mjoin (replicate 11
                           (encode_rec "a" (Some (list_ascii_of_string "1"))))]}
    ∅ [] [].
Definition crowded : PQ :=
  default (initPQ crowded_disk) (Start (initPQ crowded_disk) "1").

(** * Properties *)

(** ** Bytes, digits and numbers *)

Lemma length_list_ascii_of_string (s : string) :
  length (list_ascii_of_string s) = String.length s.
Proof. induction s as [|a s IH]; simpl; congruence. Qed.

Lemma len_string (s : string) : len (list_ascii_of_string s) = slen s.
Proof. unfold len, slen. by rewrite length_list_ascii_of_string. Qed.

Lemma len_app (a b : bytes) : len (a ++ b) = len a + len b.
Proof. unfold len. rewrite length_app. lia. Qed.

Lemma len_nonneg (a : bytes) : 0 ≤ len a.
Proof. unfold len. lia. Qed.

Lemma slen_nonneg (s : string) : 0 ≤ slen s.
Proof. unfold slen. lia. Qed.

Lemma digit_val_digit_char (d : Z) :
  0 ≤ d < 10 → digit_val (digit_char d) = Some d.
Proof.
  intros Hd.
  assert (d = 0 ∨ d = 1 ∨ d = 2 ∨ d = 3 ∨ d = 4 ∨ d = 5 ∨ d = 6 ∨ d = 7
          ∨ d = 8 ∨ d = 9) as Hc by lia.
  repeat (destruct Hc as [-> | Hc]; [reflexivity |]).
  subst d. reflexivity.
Qed.

Lemma digit_char_not_sign (d : Z) :
  0 ≤ d < 10 →
  Ascii.eqb (digit_char d) "+" = false ∧ Ascii.eqb (digit_char d) "-" = false.
Proof.
  intros Hd.
  assert (d = 0 ∨ d = 1 ∨ d = 2 ∨ d = 3 ∨ d = 4 ∨ d = 5 ∨ d = 6 ∨ d = 7
          ∨ d = 8 ∨ d = 9) as Hc by lia.
  repeat (destruct Hc as [-> | Hc]; [split; reflexivity |]).
  subst d. split; reflexivity.
Qed.

Lemma digits_fuel_enough (n : Z) : 0 ≤ n → n < 10 ^ Z.of_nat (digits_fuel n).
Proof.
  intros Hn. unfold digits_fuel.
  destruct (Z.eq_dec n 0) as [-> | Hne]; [reflexivity |].
  pose proof (Z.log2_nonneg n) as Hl.
  pose proof (Z.log2_spec n ltac:(lia)) as [_ Hlt].
  rewrite Nat2Z.inj_succ, Z2Nat.id by lia.
  eapply Z.lt_le_trans; [exact Hlt |].
  apply Z.pow_le_mono_l. lia.
Qed.

Lemma len_digits_pos (f : nat) (n : Z) : 1 ≤ len (digits (S f) 10 n).
Proof. simpl. rewrite len_app. pose proof (len_nonneg (if n <? 10 then [] else digits f 10 (n / 10))). unfold len at 2. simpl. lia. Qed.

(** With [n < 10 ^ k] the decimal form of [n] has at most [k] digits. *)
Lemma len_digits_le (f : nat) : ∀ n k,
  0 ≤ n → 1 ≤ k → n < 10 ^ k → len (digits f 10 n) ≤ k.
Proof.
  induction f as [|f IH]; intros n k Hn Hk Hlt.
  - unfold len. simpl. lia.
  - simpl. rewrite len_app. change (len [digit_char (n mod 10)]) with 1.
    destruct (Z.ltb_spec n 10) as [Hs | Hs].
    + change (len []) with 0. lia.
    + assert (2 ≤ k) as Hk2.
      { destruct (Z.eq_dec k 1) as [-> | ?]; [simpl in Hlt; lia | lia]. }
      specialize (IH (n / 10) (k - 1)).
      assert (n / 10 < 10 ^ (k - 1)) as Hd.
      { apply Z.div_lt_upper_bound; [lia |].
        rewrite <- Z.pow_succ_r by lia. replace (Z.succ (k - 1)) with k by lia.
        exact Hlt. }
      assert (0 ≤ n / 10) by (apply Z.div_pos; lia).
      specialize (IH ltac:(lia) ltac:(lia) Hd). lia.
Qed.


(** Reading back the digits of [n] after an accumulator [acc]. *)
Lemma parse_loop_digits (f : nat) : ∀ n acc rest,
  0 ≤ n < 10 ^ Z.of_nat f → 0 ≤ acc →
  acc * 10 ^ len (digits f 10 n) + n ≤ maxUint64 →
  parse_loop 10 acc (digits f 10 n ++ rest)
  = parse_loop 10 (acc * 10 ^ len (digits f 10 n) + n) rest.
Proof.
  induction f as [|f IH]; intros n acc rest Hn Hacc Hb.
  - simpl in *. f_equal. change (len []) with 0. simpl. lia.
  - simpl digits in *. rewrite len_app in *.
    change (len [digit_char (n mod 10)]) with 1 in *.
    rewrite <- app_assoc. simpl app.
    assert (0 ≤ n mod 10 < 10) as Hm by (apply Z.mod_pos_bound; lia).
    pose proof (Z.div_mod n 10 ltac:(lia)) as Hdm.
    set (D := if n <? 10 then [] else digits f 10 (n / 10)) in *.
    assert (0 ≤ len D) as HD by apply len_nonneg.
    rewrite Z.pow_add_r in * by lia. change (10 ^ 1) with 10 in *.
    assert (parse_loop 10 acc (D ++ digit_char (n mod 10) :: rest)
            = parse_loop 10 (acc * 10 ^ len D + n / 10)
                (digit_char (n mod 10) :: rest)) as ->.
    { subst D. destruct (Z.ltb_spec n 10) as [Hs | Hs].
      - rewrite app_nil_l. change (len []) with 0.
        rewrite Z.div_small, Z.pow_0_r by lia.
        replace (acc * 1 + 0) with acc by lia. reflexivity.
      - apply IH.
        + split; [apply Z.div_pos; lia |].
          apply Z.div_lt_upper_bound; [lia |].
          rewrite <- Z.pow_succ_r by lia. rewrite <- Nat2Z.inj_succ. lia.
        + lia.
        + pose proof (Z.pow_pos_nonneg 10 (len (digits f 10 (n / 10)))
                        ltac:(lia) ltac:(apply len_nonneg)).
          nia. }
    assert (0 < 10 ^ len D) by (apply Z.pow_pos_nonneg; lia).
    assert (0 ≤ n / 10) by (apply Z.div_pos; lia).
    simpl parse_loop. rewrite digit_val_digit_char by lia.
    destruct (Z.leb_spec 10 (n mod 10)); [lia |].
    unfold maxUint64 in *.
    destruct (Z.leb_spec (((2 ^ 64 - 1) / 10) + 1) (acc * 10 ^ len D + n / 10))
      as [Hc | Hc].
    { change ((2 ^ 64 - 1) / 10 + 1) with 1844674407370955162 in Hc.
      change (2 ^ 64 - 1) with 18446744073709551615 in Hb. nia. }
    destruct (Z.ltb_spec (2 ^ 64 - 1)
                ((acc * 10 ^ len D + n / 10) * 10 + n mod 10)) as [Ho | Ho].
    { nia. }
    f_equal. nia.
Qed.

Lemma digits_head (f : nat) : ∀ n,
  0 ≤ n → ∃ d r, digits (S f) 10 n = digit_char d :: r ∧ 0 ≤ d < 10.
Proof.
  induction f as [|f IH]; intros n Hn.
  - exists (n mod 10), []. split; [| apply Z.mod_pos_bound; lia].
    simpl. by destruct (n <? 10).
  - change (digits (S (S f)) 10 n)
      with ((if n <? 10 then [] else digits (S f) 10 (n / 10))
              ++ [digit_char (n mod 10)]).
    destruct (Z.ltb_spec n 10) as [Hs | Hs].
    + exists (n mod 10), []. split; [done | apply Z.mod_pos_bound; lia].
    + destruct (IH (n / 10) ltac:(apply Z.div_pos; lia)) as (d & r & -> & Hd).
      exists d, (r ++ [digit_char (n mod 10)]). done.
Qed.

Lemma Atoi_unsigned (c : ascii) (r : bytes) :
  Ascii.eqb c "+" = false → Ascii.eqb c "-" = false →
  Atoi (c :: r)
  = if 2 ^ 63 <=? parse_loop 10 0 (c :: r)
    then 2 ^ 63 - 1 else parse_loop 10 0 (c :: r).
Proof. intros H1 H2. unfold Atoi. rewrite H1, H2. reflexivity. Qed.

Lemma Sprintf_d_nonneg (n : Z) :
  0 ≤ n → list_ascii_of_string (Sprintf_d n) = digits (digits_fuel n) 10 n.
Proof.
  intros Hn. unfold Sprintf_d. destruct (Z.ltb_spec n 0); [lia |].
  apply list_ascii_of_string_of_list_ascii.
Qed.

(** [Atoi] reads back what [Sprintf("%d")] prints. *)
Lemma Atoi_Sprintf_d (n : Z) :
  0 ≤ n < 2 ^ 63 → Atoi (list_ascii_of_string (Sprintf_d n)) = n.
Proof.
  intros Hn. rewrite Sprintf_d_nonneg by lia.
  pose proof (parse_loop_digits (digits_fuel n) n 0 []) as Hp.
  rewrite app_nil_r in Hp.
  unfold maxUint64 in Hp.
  specialize (Hp ltac:(split; [lia | apply digits_fuel_enough; lia])
                 ltac:(lia) ltac:(lia)).
  destruct (digits_head (Z.to_nat (Z.log2 n)) n ltac:(lia)) as (d & r & Hd & Hr).
  change (S (Z.to_nat (Z.log2 n))) with (digits_fuel n) in Hd.
  destruct (digit_char_not_sign d Hr) as [H1 H2].
  rewrite Hd. rewrite Atoi_unsigned by done. rewrite <- Hd, Hp.
  rewrite Z.mul_0_l, Z.add_0_l. cbn [parse_loop].
  destruct (Z.leb_spec (2 ^ 63) n); [lia | done].
Qed.

Lemma slen_Sprintf_d_bounds (n : Z) :
  0 ≤ n < 10 ^ 9 → 1 ≤ slen (Sprintf_d n) ≤ 9.
Proof.
  intros Hn. rewrite <- len_string, Sprintf_d_nonneg by lia. split.
  - apply len_digits_pos.
  - apply len_digits_le; lia.
Qed.

Lemma Sprintf_d_one_digit (n : Z) :
  0 ≤ n ≤ 9 → list_ascii_of_string (Sprintf_d n) = [digit_char n].
Proof.
  intros Hn.
  assert (n = 0 ∨ n = 1 ∨ n = 2 ∨ n = 3 ∨ n = 4 ∨ n = 5 ∨ n = 6 ∨ n = 7
          ∨ n = 8 ∨ n = 9) as Hc by lia.
  repeat (destruct Hc as [-> | Hc]; [reflexivity |]).
  subst n. reflexivity.
Qed.

Lemma Atoi_one_digit (n : Z) : 0 ≤ n ≤ 9 → Atoi [digit_char n] = n.
Proof.
  intros Hn. rewrite <- Sprintf_d_one_digit by done.
  apply Atoi_Sprintf_d. lia.
Qed.

(** ** The codec *)

Lemma encode_rec_frame (key : string) (data : option bytes) :
  encode_rec key data
  = frame (list_ascii_of_string MAGICNUMBER) (makeCheckSum (elems data)) key
      (elems data).
Proof. reflexivity. Qed.

Lemma length_makeCheckSum (v : bytes) : length (makeCheckSum v) = 10%nat.
Proof.
  unfold makeCheckSum, Sprintf_10d. rewrite length_take, length_app, length_replicate.
  lia.
Qed.

Lemma len_frame (magic sum : bytes) (key : string) (v : bytes) :
  length magic = 3%nat → length sum = 10%nat →
  slen key < 10 ^ 9 → len v < 10 ^ 9 →
  len (frame magic sum key v) = record_length key v.
Proof.
  intros Hm Hs Hk Hv. unfold frame, record_length.
  pose proof (slen_nonneg key). pose proof (len_nonneg v).
  pose proof (slen_Sprintf_d_bounds (slen key) ltac:(lia)) as Hlk.
  pose proof (slen_Sprintf_d_bounds (len v) ltac:(lia)) as Hlv.
  rewrite (Sprintf_d_one_digit (slen (Sprintf_d (slen key)))) by lia.
  rewrite (Sprintf_d_one_digit (slen (Sprintf_d (len v)))) by lia.
  rewrite !len_app, !len_string.
  assert (len magic = 3) as -> by (unfold len; lia).
  assert (len sum = 10) as -> by (unfold len; lia).
  change (slen " ") with 1. change (len [chr 10]) with 1.
  change (len [digit_char (slen (Sprintf_d (slen key)))]) with 1.
  change (len [digit_char (slen (Sprintf_d (len v)))]) with 1.
  lia.
Qed.

(** A read that finds all it asks for. *)
Lemma read_buf_app (pre x rest : bytes) (pos n : Z) :
  pos = len pre → len x = n → 0 < n →
  read_buf (pre ++ x ++ rest) pos n = Ok (x, n).
Proof.
  intros -> Hx Hn.
  assert (take (Z.to_nat n) (drop (Z.to_nat (len pre)) (pre ++ x ++ rest)) = x)
    as Hgot.
  { unfold len at 1. rewrite Nat2Z.id, drop_app_length.
    apply take_app_length'. unfold len in Hx. lia. }
  unfold read_buf. rewrite Hgot.
  destruct (Z.ltb_spec n 0); [lia |]. destruct (Z.eqb_spec n 0); [lia |].
  destruct x as [|a x]; [unfold len in Hx; simpl in Hx; lia |].
  replace (Z.to_nat n - length (a :: x))%nat with 0%nat
    by (unfold len in Hx; lia).
  simpl replicate. rewrite app_nil_r. by rewrite Hx.
Qed.

(** Decoding a frame: the magic bytes play no part, the checksum field
    decides. *)
Lemma decode_frame (pre post magic sum : bytes) (key : string) (v : bytes) :
  length magic = 3%nat → length sum = 10%nat →
  slen key < 10 ^ 9 → len v < 10 ^ 9 →
  decode_at (pre ++ frame magic sum key v ++ post) (len pre)
  = if bool_decide (sum = makeCheckSum v)
    then Ok (list_ascii_of_string key, v, len pre + record_length key v)
    else Err (ErrChecksum sum).
Proof.
  intros Hm Hs Hk Hv.
  pose proof (slen_nonneg key) as Hk0. pose proof (len_nonneg v) as Hv0.
  pose proof (len_nonneg pre) as Hp0.
  pose proof (slen_Sprintf_d_bounds (slen key) ltac:(lia)) as Ha.
  pose proof (slen_Sprintf_d_bounds (len v) ltac:(lia)) as Hb.
  unfold record_length.
  set (a := slen (Sprintf_d (slen key))) in *.
  set (b := slen (Sprintf_d (len v))) in *.
  set (LK := list_ascii_of_string (Sprintf_d (slen key))).
  set (LD := list_ascii_of_string (Sprintf_d (len v))).
  set (K := list_ascii_of_string key).
  assert (len LK = a) as HLK by apply len_string.
  assert (len LD = b) as HLD by apply len_string.
  assert (len K = slen key) as HK by apply len_string.
  set (hdr := magic ++ sum ++ [digit_char a] ++ [digit_char b]).
  set (body := " "%char :: K ++ " "%char :: v).
  assert (frame magic sum key v = hdr ++ (LK ++ LD) ++ body ++ [chr 10]) as ->.
  { unfold frame, hdr, body. fold a b.
    rewrite (Sprintf_d_one_digit a), (Sprintf_d_one_digit b) by lia.
    fold LK LD K. simpl. by rewrite <- !app_assoc. }
  assert (len hdr = 15) as Hhdr.
  { unfold hdr. rewrite !len_app. unfold len. rewrite Hm, Hs. simpl. lia. }
  assert (len body = slen key + len v + 2) as Hbody.
  { unfold body. change (" "%char :: K ++ " "%char :: v)
      with ([" "%char] ++ K ++ [" "%char] ++ v).
    rewrite !len_app, HK. change (len [" "%char]) with 1. lia. }
  assert (take 1 (drop 13 hdr) = [digit_char a]
          ∧ take 1 (drop 14 hdr) = [digit_char b]
          ∧ take 10 (drop 3 hdr) = sum) as (Hf1 & Hf2 & Hf3).
  { unfold hdr.
    destruct magic as [|m1 [|m2 [|m3 [|]]]]; try discriminate.
    destruct sum as [|s1 [|s2 [|s3 [|s4 [|s5 [|s6 [|s7 [|s8 [|s9 [|s10 [|]]]]]]]]]]];
      try discriminate.
    done. }
  unfold decode_at.
  destruct (Z.ltb_spec (len pre) 0); [lia |].
  unfold RECHEADER, NUMESPACOS.
  rewrite <- !app_assoc.
  rewrite (read_buf_app pre hdr _ (len pre) 15) by (done || lia).
  cbn [mbind outcome_bind]. rewrite Hf1, Hf2, !Atoi_one_digit by lia.
  assert (pre ++ hdr ++ LK ++ LD ++ body ++ [chr 10] ++ post
          = (pre ++ hdr) ++ (LK ++ LD) ++ body ++ [chr 10] ++ post) as ->
    by (by rewrite <- !app_assoc).
  rewrite (read_buf_app (pre ++ hdr) (LK ++ LD) _ (len pre + 15) (a + b))
    by (rewrite ?len_app; lia).
  cbn [mbind outcome_bind].
  rewrite take_app_length' by (unfold len in HLK; lia).
  rewrite drop_app_length' by (unfold len in HLK; lia).
  assert (Atoi LK = slen key) as -> by (apply Atoi_Sprintf_d; lia).
  assert (Atoi LD = len v) as -> by (apply Atoi_Sprintf_d; lia).
  assert ((pre ++ hdr) ++ (LK ++ LD) ++ body ++ [chr 10] ++ post
          = ((pre ++ hdr) ++ LK ++ LD) ++ body ++ [chr 10] ++ post) as ->
    by (by rewrite <- !app_assoc).
  rewrite (read_buf_app ((pre ++ hdr) ++ LK ++ LD) body _ (len pre + 15 + (a + b))
             (slen key + len v + 2)) by (rewrite ?len_app; lia).
  cbn [mbind outcome_bind].
  assert (subslice body (slen key + 2) (len body) = Ok v) as ->.
  { unfold subslice.
    destruct (Z.ltb_spec (slen key + 2) 0); [lia |].
    destruct (Z.ltb_spec (len body) (slen key + 2)); [lia |].
    destruct (Z.ltb_spec (len body) (len body)); [lia |].
    cbn [orb]. f_equal.
    assert (drop (Z.to_nat (slen key + 2)) body = v) as ->.
    { assert (body = (" "%char :: K ++ [" "%char]) ++ v) as ->
        by (unfold body; simpl; by rewrite <- app_assoc).
      apply drop_app_length'. simpl. rewrite length_app. simpl.
      unfold len in HK. lia. }
    apply take_ge. unfold len in *. lia. }
  rewrite Hf3. cbn [mbind outcome_bind].
  destruct (bool_decide (sum = makeCheckSum v)); [| done].
  assert (subslice body 1 (slen key + 1) = Ok K) as ->.
  { unfold subslice.
    destruct (Z.ltb_spec 1 0); [lia |].
    destruct (Z.ltb_spec (slen key + 1) 1); [lia |].
    destruct (Z.ltb_spec (len body) (slen key + 1)); [lia |].
    cbn [orb]. f_equal. unfold body. simpl drop.
    apply take_app_length'. unfold len in HK. lia. }
  cbn [mbind outcome_bind]. do 2 f_equal. lia.
Qed.

(** C2.  For a key of 1 to 10^9 - 1 bytes and a value of fewer than 10^9
    bytes, decoding the record that [Put] encodes, wherever it lies in a file,
    gives back the key and the value, and the next offset is the offset of
    the record plus its length 15 + SzLenKey + SzLenData + |k| + |v| + 3; the
    encoded record has that length. *)
Theorem decode_encode (k : string) (v pre post : bytes) :
  1 ≤ slen k < 10 ^ 9 → len v < 10 ^ 9 →
  decode_at (pre ++ encode_rec k (Some v) ++ post) (len pre)
  = Ok (list_ascii_of_string k, v, len pre + record_length k v)
  ∧ len (encode_rec k (Some v)) = record_length k v.
Proof.
  intros Hk Hv. rewrite encode_rec_frame. simpl elems. split.
  - rewrite decode_frame by (done || lia || apply length_makeCheckSum).
    by rewrite bool_decide_eq_true_2.
  - apply len_frame; done || lia || apply length_makeCheckSum.
Qed.

Lemma decode_encode_witness :
  decode_at (list_ascii_of_string "junk"
             ++ encode_rec "ab" (Some (list_ascii_of_string "xyz")) ++ [])
    (len (list_ascii_of_string "junk"))
  = Ok (list_ascii_of_string "ab", list_ascii_of_string "xyz",
        len (list_ascii_of_string "junk")
        + record_length "ab" (list_ascii_of_string "xyz"))
  ∧ len (encode_rec "ab" (Some (list_ascii_of_string "xyz")))
    = record_length "ab" (list_ascii_of_string "xyz").
Proof.
  apply (decode_encode "ab" (list_ascii_of_string "xyz")
           (list_ascii_of_string "junk") []).
  - unfold slen. simpl. lia.
  - unfold len. simpl. lia.
Defined.

(** *** The magic number *)

Lemma read_buf_count (c : bytes) (pos n : Z) (b : bytes) (k : Z) :
  read_buf c pos n = Ok (b, k) → 0 ≤ k.
Proof.
  unfold read_buf. destruct (n <? 0); [done |]. destruct (n =? 0).
  - intros [= _ <-]. lia.
  - destruct (take _ _); [done |]. intros [= _ <-]. apply len_nonneg.
Qed.




Lemma decode_at_past_end (c : bytes) (o : Z) :
  len c ≤ o → decode_at c o = Err EOF.
Proof.
  intros Ho. pose proof (len_nonneg c). unfold decode_at.
  destruct (Z.ltb_spec o 0); [lia |].
  unfold read_buf, RECHEADER. simpl (15 <? 0). simpl (15 =? 0).
  rewrite drop_ge by (unfold len in Ho; lia). by rewrite take_nil.
Qed.





(** ** Listing and counting keys *)









(** ** The counts and the index *)

Lemma sum_counts_empty : sum_counts ∅ = 0.
Proof. apply map_fold_empty. Qed.

Lemma sum_counts_delete (m : gmap string Z) (k : string) :
  sum_counts (delete k m) = sum_counts m - count m k.
Proof.
  unfold count. destruct (m !! k) as [x |] eqn:Hk; simpl.
  - unfold sum_counts.
    rewrite (map_fold_delete_L _ _ k x m); [lia | intros; lia | done].
  - rewrite delete_id by done. lia.
Qed.

Lemma sum_counts_insert (m : gmap string Z) (k : string) (v : Z) :
  sum_counts (<[k := v]> m) = sum_counts m - count m k + v.
Proof.
  rewrite <- insert_delete_eq. unfold sum_counts at 1.
  rewrite map_fold_insert_L; [| intros; lia | apply lookup_delete_eq].
  fold (sum_counts (delete k m)). rewrite sum_counts_delete. lia.
Qed.

Lemma sum_counts_incr (m : gmap string Z) (k : string) :
  sum_counts (incr k m) = sum_counts m + 1.
Proof. unfold incr. rewrite sum_counts_insert. lia. Qed.

Lemma sum_counts_decr (m : gmap string Z) (k : string) :
  sum_counts (decr k m) = sum_counts m - 1.
Proof. unfold decr. rewrite sum_counts_insert. lia. Qed.

Lemma size_insert_Some (m : gmap string Rec) (k : string) (r r' : Rec) :
  m !! k = Some r → size (<[k := r']> m) = size m.
Proof. intros Hk. apply map_size_insert_Some. by rewrite Hk. Qed.

Lemma size_delete_Some (m : gmap string Rec) (k : string) (r : Rec) :
  m !! k = Some r → Z.of_nat (size (delete k m)) = Z.of_nat (size m) - 1.
Proof.
  intros Hk. assert (is_Some (m !! k)) as Hs by (by rewrite Hk).
  pose proof (map_size_delete_Some k m Hs) as Hd.
  assert (size m ≠ 0%nat) as Hne.
  { intros H0. apply map_size_empty_iff in H0. subst m.
    by rewrite lookup_empty in Hk. }
  lia.
Qed.

Lemma put_record_counts (pq : PQ) (key : string) (data : option bytes)
    (pq' : PQ) (err : option error) :
  counts_match pq → put_record pq key data = Some (pq', err) →
  counts_match pq'.
Proof.
  unfold counts_match, put_record. intros Hinv.
  destruct data as [v |], (Key pq !! key) as [r |] eqn:Hk;
    try (intros [= <- <-]; exact Hinv);
    (case_bool_decide; [| done]);
    destruct (file_write _ _ _) as [d [e |]]; intros [= <- <-]; simpl;
    try exact Hinv.
  - rewrite sum_counts_incr, sum_counts_decr, (size_insert_Some _ _ r) by done.
    lia.
  - rewrite sum_counts_incr, map_size_insert_None by done. lia.
  - rewrite sum_counts_decr, (size_delete_Some _ _ r) by done. lia.
Qed.

Lemma Put_counts (pq : PQ) (key : string) (d : slice) (pq' : PQ)
    (err : option error) :
  counts_match pq → Put pq key d = Some (pq', err) → counts_match pq'.
Proof.
  unfold Put. intros Hinv. case_bool_decide; [by intros [= <- <-] |].
  destruct (moves_away pq key (shrinkByteSlice d)).
  - destruct (put_record pq key None) as [[pq1 e1] |] eqn:H1; [| done].
    simpl. intros H2.
    eapply put_record_counts; [| exact H2]. by eapply put_record_counts.
  - simpl. by apply put_record_counts.
Qed.

Lemma scan_record_counts (f : string) (s : Scan) (key data : bytes) (o : Z) :
  sum_counts (countF s) = Z.of_nat (size (memkey s)) →
  sum_counts (countF (scan_record f s key data o))
  = Z.of_nat (size (memkey (scan_record f s key data o))).
Proof.
  intros Hinv. unfold scan_record.
  destruct (0 <? len data), (memkey s !! string_of_list_ascii key) as [r |] eqn:Hk;
    simpl; try exact Hinv.
  - rewrite sum_counts_incr, sum_counts_decr, (size_insert_Some _ _ r) by done.
    lia.
  - rewrite sum_counts_incr, map_size_insert_None by done. lia.
  - rewrite sum_counts_decr, (size_delete_Some _ _ r) by done. lia.
Qed.

Lemma scan_counts (fuel : nat) (pq : PQ) (f : string) : ∀ s s',
  sum_counts (countF s) = Z.of_nat (size (memkey s)) →
  scan fuel pq f s = Some s' →
  sum_counts (countF s') = Z.of_nat (size (memkey s')).
Proof.
  induction fuel as [|n IH]; intros s s' Hinv; [done |]. simpl.
  destruct (GetOff pq (curoffset s) f) as [[[key data] o] | e |]; [| | done].
  - apply IH. by apply scan_record_counts.
  - by intros [= <-].
Qed.

Lemma Start_counts (pq : PQ) (f : string) (pq' : PQ) :
  counts_match pq → Start pq f = Some pq' → counts_match pq'.
Proof.
  unfold counts_match, Start. intros Hinv.
  destruct (scan _ _ _ _) as [s |] eqn:Hs; [| done].
  simpl. intros [= <-]. simpl.
  eapply scan_counts; [| exact Hs]. exact Hinv.
Qed.

Lemma checkNewBlock_counts (pq pq' : PQ) :
  counts_match pq → checkNewBlock pq = Some pq' → counts_match pq'.
Proof.
  unfold checkNewBlock. intros Hinv.
  destruct (_ <? _); [by apply Start_counts | by intros [= <-]].
Qed.

Lemma collect_all_counts (ks : list string) : ∀ pq,
  (∀ k, k ∈ ks → count (CountFile pq) k = 0) →
  counts_match pq → counts_match (foldl collect pq ks).
Proof.
  induction ks as [|k ks IH]; intros pq Hz Hinv; [done |]. simpl.
  apply IH.
  - intros k' Hk'. unfold count. simpl.
    destruct (decide (k = k')) as [-> | Hne].
    + by rewrite lookup_delete_eq.
    + rewrite lookup_delete_ne by done. apply Hz. by right.
  - unfold counts_match in *. simpl. rewrite sum_counts_delete, Hz; [lia | by left].
Qed.

Lemma checkGarbage_counts (pq : PQ) :
  counts_match pq → counts_match (checkGarbage pq).
Proof.
  intros Hinv. apply collect_all_counts; [| done].
  intros k. unfold garbage_of. rewrite list_elem_of_fmap.
  intros ([k' v] & -> & [[_ Hv] Hin]%list_elem_of_filter).
  apply elem_of_map_to_list in Hin. unfold count. simpl in *. by rewrite Hin.
Qed.

Lemma reallocate_key_counts (pq : PQ) (key : string) (pq' : PQ)
    (err : option error) :
  counts_match pq → reallocate_key pq key = Some (pq', err) →
  counts_match pq'.
Proof.
  unfold reallocate_key. intros Hinv.
  destruct (Key pq !! key) as [r |]; [| by intros [= <- <-]].
  case_bool_decide; [| by intros [= <- <-]].
  destruct (Get pq key) as [rec | e |]; [| by intros [= <- <-] | done].
  destruct (Put pq key (mk_slice rec 0)) as [[pq1 [e |]] |] eqn:HP; [| | done].
  - simpl. intros [= <- <-]. by eapply Put_counts.
  - simpl. destruct (checkNewBlock pq1) as [pq2 |] eqn:HC; [| done].
    simpl. intros [= <- <-].
    eapply checkNewBlock_counts; [| exact HC]. by eapply Put_counts.
Qed.

Lemma reallocate_loop_counts (keys : list string) : ∀ pq pq' err,
  counts_match pq → reallocate_loop pq keys = Some (pq', err) →
  counts_match pq'.
Proof.
  induction keys as [|key keys IH]; intros pq pq' err Hinv.
  - by intros [= <- <-].
  - simpl. destruct (reallocate_key pq key) as [[pq1 [e |]] |] eqn:HK; [| | done].
    + simpl. intros [= <- <-]. by eapply reallocate_key_counts.
    + simpl. apply IH. by eapply reallocate_key_counts.
Qed.

Lemma Reallocate_counts (pq pq' : PQ) (err : option error) :
  counts_match pq → Reallocate pq = Some (pq', err) → counts_match pq'.
Proof.
  unfold Reallocate. intros Hinv.
  destruct (reallocate_loop pq (keysReallocate pq)) as [[pq1 [e |]] |] eqn:HL;
    [| | done]; simpl; intros [= <- <-].
  - by eapply reallocate_loop_counts.
  - apply checkGarbage_counts.
    apply (reallocate_loop_counts _ _ _ _ Hinv) in HL. exact HL.
Qed.

Lemma start_all_counts (names : list string) : ∀ pq pq',
  counts_match pq → start_all pq names = Some pq' → counts_match pq'.
Proof.
  induction names as [|f names IH]; intros pq pq' Hinv; [by intros [= <-] |].
  simpl. destruct (Start pq f) as [pq1 |] eqn:HS; [| done].
  simpl. apply IH. by eapply Start_counts.
Qed.

Lemma New_counts (d : Disk) (pq : PQ) : New d = Ok pq → counts_match pq.
Proof.
  unfold New.
  assert (counts_match (initPQ d)) as H0.
  { unfold counts_match. simpl. by rewrite sum_counts_empty, map_size_empty. }
  destruct (filter _ (ReadDir d)) as [|f names].
  - destruct (Start (initPQ d) "1") as [pq1 |] eqn:HS; [| done].
    destruct (Reallocate pq1) as [[pq2 [e |]] |] eqn:HR; [done | | done].
    intros [= <-]. eapply Reallocate_counts; [| exact HR].
    by eapply Start_counts.
  - destruct (start_all (initPQ d) (f :: names)) as [pq1 |] eqn:HS; [| done].
    destruct (Reallocate pq1) as [[pq2 [e |]] |] eqn:HR; [done | | done].
    intros [= <-]. eapply Reallocate_counts; [| exact HR].
    by eapply start_all_counts.
Qed.

(** C3.  In every state of the store the counts of live records, summed over
    the files, equal the number of entries of the index: [New] sets the
    equality up and [Put] (so [Delete]), [Start], the rotation, [Reallocate]
    and the garbage pass keep it. *)
Theorem counts_match_reachable (pq : PQ) :
  reachable pq → sum_counts (CountFile pq) = Z.of_nat (size (Key pq)).
Proof.
  intros Hr. change (counts_match pq).
  induction Hr as [d pq HN | pq key data pq' err _ IH HP | pq f pq' _ IH HS
                   | pq pq' _ IH HC | pq pq' err _ IH HR | pq _ IH | pq m _ IH].
  - by eapply New_counts.
  - by eapply Put_counts.
  - by eapply Start_counts.
  - by eapply checkNewBlock_counts.
  - by eapply Reallocate_counts.
  - by apply checkGarbage_counts.
  - exact IH.
Qed.

Lemma demo0_New : New empty_disk = Ok demo0.
Proof. by vm_compute. Qed.

Lemma counts_match_reachable_witness :
  sum_counts (CountFile demo3) = Z.of_nat (size (Key demo3)).
Proof.
  apply (counts_match_reachable demo3).
  eapply (reach_Put _ "b" (bs "3") _ None);
    [eapply (reach_Put _ "ab" (bs "2") _ None);
       [eapply (reach_Put _ "a" (bs "1") _ None);
          [apply (reach_New empty_disk); by vm_compute |] |] |];
    by vm_compute.
Defined.


(** ** Put *)



Lemma content_insert_ne (d : Disk) (name name' : string) (c : bytes)
    (b : gmap string bytes) (l : list wout) (w : list (string * bytes)) :
  name ≠ name' →
  content (mkDisk (<[name := c]> (files d)) b l w) name' = content d name'.
Proof. intros Hne. unfold content. simpl. by rewrite lookup_insert_ne. Qed.














(** *** A write that fails *)





(** ** The scan of a file at startup *)

Lemma read_buf_some (c : bytes) (pos n : Z) (b : bytes) (k : Z) :
  read_buf c pos n = Ok (b, k) → 0 < n → 0 ≤ pos → 0 < k ∧ pos < len c.
Proof.
  unfold read_buf. intros Hr Hn Hpos.
  destruct (Z.ltb_spec n 0); [lia |]. destruct (Z.eqb_spec n 0); [lia |].
  destruct (take (Z.to_nat n) (drop (Z.to_nat pos) c)) as [|a l] eqn:Hg;
    [done |].
  injection Hr as _ <-. split; [unfold len; simpl; lia |].
  assert (drop (Z.to_nat pos) c ≠ []) as Hd
    by (intros E; by rewrite E, take_nil in Hg).
  assert (¬ (length c ≤ Z.to_nat pos)%nat) as Hl
    by (intros Hge; by apply Hd, drop_ge).
  unfold len. lia.
Qed.

(** A read sees the same bytes in the file cut after the last byte it got. *)
Lemma read_buf_take (c : bytes) (pos n : Z) (b : bytes) (k : Z) (m : nat) :
  read_buf c pos n = Ok (b, k) → 0 ≤ pos → pos + k ≤ Z.of_nat m →
  read_buf (take m c) pos n = Ok (b, k).
Proof.
  unfold read_buf. intros Hr Hpos Hm.
  destruct (Z.ltb_spec n 0); [done |]. destruct (Z.eqb_spec n 0); [done |].
  set (D := drop (Z.to_nat pos) c) in *.
  assert (take (Z.to_nat n) (drop (Z.to_nat pos) (take m c))
          = take (Z.to_nat n) D) as ->; [| done].
  destruct (take (Z.to_nat n) D) as [|a l] eqn:Hg; [done |].
  injection Hr as _ <-. rewrite <- Hg in Hm |- *.
  unfold len in Hm. rewrite length_take in Hm.
  replace m with (Z.to_nat pos + (m - Z.to_nat pos))%nat at 1 by lia.
  rewrite <- take_drop_commute. fold D. rewrite take_take.
  destruct (Nat.le_gt_cases (Z.to_nat n) (m - Z.to_nat pos)) as [Hle | Hgt].
  - by rewrite Nat.min_l.
  - rewrite Nat.min_r by lia. rewrite !take_ge; [done | lia | lia].
Qed.

(** What a decoding that succeeds has read ends one byte before the next
    offset: cutting the file there or later changes nothing. *)
Lemma decode_at_take (c : bytes) (o : Z) (k v : bytes) (n : Z) (m : nat) :
  decode_at c o = Ok (k, v, n) → n - 1 ≤ Z.of_nat m →
  decode_at (take m c) o = Ok (k, v, n) ∧ 0 ≤ o < len c ∧ o < n.
Proof.
  unfold decode_at. destruct (Z.ltb_spec o 0) as [| Ho]; [done |].
  destruct (read_buf c o RECHEADER) as [[hdr sz] | |] eqn:H1; [| done | done].
  cbn [mbind outcome_bind].
  destruct (read_buf c (o + sz) _) as [[dataLen szLen] | |] eqn:H2;
    [| done | done].
  cbn [mbind outcome_bind].
  destruct (read_buf c (o + sz + szLen) _) as [[data szData] | |] eqn:H3;
    [| done | done].
  cbn [mbind outcome_bind].
  destruct (read_buf_some _ _ _ _ _ H1 ltac:(done) Ho) as [Hsz Hlt].
  pose proof (read_buf_count _ _ _ _ _ H2) as HszL.
  pose proof (read_buf_count _ _ _ _ _ H3) as HszD.
  intros Hres Hm.
  assert (n = o + (sz + szLen + szData + 1)) as Hn.
  { destruct (subslice data _ (len data)) as [recData | |]; [| done | done].
    cbn [mbind outcome_bind] in Hres.
    destruct (bool_decide _); [| done].
    destruct (subslice data 1 _) as [key | |]; [| done | done].
    cbn [mbind outcome_bind] in Hres. by injection Hres as _ _ <-. }
  rewrite (read_buf_take _ _ _ _ _ m H1) by lia. cbn [mbind outcome_bind].
  rewrite (read_buf_take _ _ _ _ _ m H2) by lia. cbn [mbind outcome_bind].
  rewrite (read_buf_take _ _ _ _ _ m H3) by lia. cbn [mbind outcome_bind].
  split; [exact Hres | lia].
Qed.

Lemma decode_at_advances (c : bytes) (o : Z) (k v : bytes) (n : Z) :
  decode_at c o = Ok (k, v, n) → 0 ≤ o < len c ∧ o < n.
Proof.
  intros Hd.
  apply (decode_at_take c o k v n (Z.to_nat n) Hd). lia.
Qed.


(** Every record takes at least one byte of the file. *)
Lemma decodes_length (c : bytes) (o : Z) (recs : list (bytes * bytes * Z))
    (o' : Z) :
  decodes c o recs o' → Z.of_nat (length recs) ≤ Z.max 0 (len c - o).
Proof.
  induction 1 as [| o k v n recs o' Hd _ IH]; [simpl; lia |].
  apply decode_at_advances in Hd. simpl length. lia.
Qed.


(** From any offset the records decode in a row up to an offset where
    decoding does not succeed: the loop of [Start] comes to an end. *)
Lemma decodes_total (c : bytes) : ∀ (n : nat) (o : Z),
  (Z.to_nat (len c - o) < n)%nat →
  ∃ recs o', decodes c o recs o' ∧ ∀ x, decode_at c o' ≠ Ok x.
Proof.
  induction n as [|n IH]; intros o Hn; [lia |].
  destruct (decode_at c o) as [[[k v] o1] | e |] eqn:Hd.
  - pose proof (decode_at_advances _ _ _ _ _ Hd) as [Ho Ho1].
    destruct (IH o1 ltac:(lia)) as (recs & o' & Hrecs & Hend).
    exists ((k, v, o1) :: recs), o'. split; [by econstructor | done].
  - exists [], o. split; [constructor |]. intros x. by rewrite Hd.
  - exists [], o. split; [constructor |]. intros x. by rewrite Hd.
Qed.

Lemma GetOff_open (pq : PQ) (o : Z) (f : string) :
  f ∈ PoolFH pq → GetOff pq o f = decode_at (content (disk pq) f) o.
Proof. intros Hf. unfold GetOff. by rewrite bool_decide_eq_true_2. Qed.

Lemma curoffset_scan_record (f : string) (s : Scan) (k v : bytes) (n : Z) :
  curoffset (scan_record f s k v n) = n.
Proof.
  unfold scan_record.
  by destruct (0 <? len v), (memkey s !! string_of_list_ascii k).
Qed.

(** What the loop of [Start] returns: the records that decode in a row from
    the current offset were replayed, and decoding fails at the offset it
    stops at. *)
Lemma scan_sound (pq : PQ) (f : string) (fuel : nat) : ∀ s s',
  f ∈ PoolFH pq → scan fuel pq f s = Some s' →
  ∃ recs, decodes (content (disk pq) f) (curoffset s) recs (curoffset s')
          ∧ s' = replay f s recs
          ∧ ∃ e, decode_at (content (disk pq) f) (curoffset s') = Err e.
Proof.
  induction fuel as [|n IH]; intros s s' Hf; [done |]. simpl.
  rewrite GetOff_open by done.
  destruct (decode_at _ (curoffset s)) as [[[k v] o] | e |] eqn:Hd; [| | done].
  - intros Hs. destruct (IH _ _ Hf Hs) as (recs & Hrecs & -> & He).
    rewrite curoffset_scan_record in Hrecs.
    exists ((k, v, o) :: recs). split; [by econstructor | done].
  - intros [= <-]. exists []. split; [constructor |]. split; [done |].
    by exists e.
Qed.

(** The fuel [Start] gives is enough: with more fuel than records the loop
    reaches the offset where decoding fails. *)
Lemma scan_fuel (pq : PQ) (f : string) (recs : list (bytes * bytes * Z)) :
  ∀ (fuel : nat) (s : Scan) (o' : Z) (e : error),
  f ∈ PoolFH pq →
  decodes (content (disk pq) f) (curoffset s) recs o' →
  decode_at (content (disk pq) f) o' = Err e →
  (length recs < fuel)%nat →
  scan fuel pq f s = Some (replay f s recs).
Proof.
  induction recs as [|[[k v] n] recs IH]; intros fuel s o' e Hf Hrecs He Hfuel;
    (destruct fuel as [|fuel]; [simpl in Hfuel; lia |]);
    inversion Hrecs; subst; simpl; rewrite GetOff_open by done.
  - by rewrite He.
  - match goal with H : decode_at _ _ = Ok _ |- _ => rewrite H end.
    apply (IH fuel _ o' e); [done | | done | simpl in Hfuel; lia].
    by rewrite curoffset_scan_record.
Qed.

(** [Start] gives no state only when [GetOff] panics. *)
Lemma Start_None (pq : PQ) (f : string) :
  Start pq f = None →
  ∃ recs o, decodes (content (disk (Open (set_File pq f))) f) 0 recs o
            ∧ decode_at (content (disk (Open (set_File pq f))) f) o = Panic.
Proof.
  unfold Start. set (pq1 := Open (set_File pq f)).
  set (c := content (disk pq1) f).
  assert (f ∈ PoolFH pq1) as Hf by (simpl; set_solver).
  destruct (decodes_total c (S (Z.to_nat (len c))) 0 ltac:(lia))
    as (recs & o' & Hrecs & Hend).
  destruct (decode_at c o') as [x | e |] eqn:Hd; [by destruct (Hend x) | |].
  - pose proof (decodes_length _ _ _ _ Hrecs) as Hlen.
    rewrite (scan_fuel pq1 f recs _ _ o' e); [done | done | done | done |].
    unfold len in Hlen. fold c. lia.
  - intros _. by exists recs, o'.
Qed.

Lemma Start_unfold (pq : PQ) (f : string) :
  Start pq f
  = start_result (Open (set_File pq f)) f
    <$> scan (S (length (content (disk (Open (set_File pq f))) f)))
          (Open (set_File pq f)) f (scan_init (Open (set_File pq f))).
Proof. unfold Start. by destruct (scan _ _ _ _). Qed.

(** [Start] in terms of the records of the file. *)
Lemma Start_sound (pq : PQ) (f : string) (pq' : PQ) :
  Start pq f = Some pq' →
  ∃ recs,
    decodes (content (disk (Open (set_File pq f))) f) 0 recs (CurOffset pq')
    ∧ (∃ e, decode_at (content (disk (Open (set_File pq f))) f)
              (CurOffset pq') = Err e)
    ∧ pq' = start_result (Open (set_File pq f)) f
              (replay f (scan_init (Open (set_File pq f))) recs).
Proof.
  rewrite Start_unfold. set (pq1 := Open (set_File pq f)).
  destruct (scan _ _ _ _) as [s |] eqn:Hs; [| done].
  intros [= <-].
  destruct (scan_sound pq1 f _ _ _ ltac:(simpl; set_solver) Hs)
    as (recs & Hrecs & -> & He).
  exists recs. done.
Qed.

Lemma Start_complete (pq : PQ) (f : string) (recs : list (bytes * bytes * Z))
    (o' : Z) (e : error) :
  decodes (content (disk (Open (set_File pq f))) f) 0 recs o' →
  decode_at (content (disk (Open (set_File pq f))) f) o' = Err e →
  Start pq f
  = Some (start_result (Open (set_File pq f)) f
            (replay f (scan_init (Open (set_File pq f))) recs)).
Proof.
  intros Hrecs He. rewrite Start_unfold. set (pq1 := Open (set_File pq f)).
  pose proof (decodes_length _ _ _ _ Hrecs) as Hlen.
  rewrite (scan_fuel pq1 f recs _ _ o' e); [done | simpl; set_solver | done..|].
  fold pq1 in Hlen. unfold len in Hlen. lia.
Qed.







(** ** What a decoding depends on *)

(** A read that ends before the end of the file is not changed by bytes put
    after the file. *)
Lemma read_buf_app_end (c e : bytes) (pos n : Z) (b : bytes) (k : Z) :
  read_buf c pos n = Ok (b, k) → 0 ≤ pos → pos + k < len c →
  read_buf (c ++ e) pos n = Ok (b, k).
Proof.
  unfold read_buf. intros Hr Hpos Hend.
  destruct (Z.ltb_spec n 0); [done |]. destruct (Z.eqb_spec n 0); [done |].
  set (D := drop (Z.to_nat pos) c) in *.
  assert (take (Z.to_nat n) (drop (Z.to_nat pos) (c ++ e))
          = take (Z.to_nat n) D) as ->; [| done].
  destruct (take (Z.to_nat n) D) as [|a l] eqn:Hg; [done |].
  injection Hr as _ <-. rewrite <- Hg in Hend |- *.
  unfold len in Hend. rewrite length_take in Hend.
  assert (length D = (length c - Z.to_nat pos)%nat) as HD
    by (unfold D; apply length_drop).
  rewrite drop_app_le by lia. fold D. apply take_app_le. lia.
Qed.

Lemma decode_at_app (c e : bytes) (o : Z) (k v : bytes) (n : Z) :
  decode_at c o = Ok (k, v, n) → n ≤ len c →
  decode_at (c ++ e) o = Ok (k, v, n).
Proof.
  unfold decode_at. destruct (Z.ltb_spec o 0) as [| Ho]; [done |].
  destruct (read_buf c o RECHEADER) as [[hdr sz] | |] eqn:H1; [| done | done].
  cbn [mbind outcome_bind].
  destruct (read_buf c (o + sz) _) as [[dataLen szLen] | |] eqn:H2;
    [| done | done].
  cbn [mbind outcome_bind].
  destruct (read_buf c (o + sz + szLen) _) as [[data szData] | |] eqn:H3;
    [| done | done].
  cbn [mbind outcome_bind].
  destruct (read_buf_some _ _ _ _ _ H1 ltac:(done) Ho) as [Hsz Hlt].
  pose proof (read_buf_count _ _ _ _ _ H2) as HszL.
  pose proof (read_buf_count _ _ _ _ _ H3) as HszD.
  intros Hres Hm.
  assert (n = o + (sz + szLen + szData + 1)) as Hn.
  { destruct (subslice data _ (len data)) as [recData | |]; [| done | done].
    cbn [mbind outcome_bind] in Hres.
    destruct (bool_decide _); [| done].
    destruct (subslice data 1 _) as [key | |]; [| done | done].
    cbn [mbind outcome_bind] in Hres. by injection Hres as _ _ <-. }
  rewrite (read_buf_app_end _ e _ _ _ _ H1) by lia. cbn [mbind outcome_bind].
  rewrite (read_buf_app_end _ e _ _ _ _ H2) by lia. cbn [mbind outcome_bind].
  rewrite (read_buf_app_end _ e _ _ _ _ H3) by lia. cbn [mbind outcome_bind].
  exact Hres.
Qed.

(** X2.  A [GetOff] that succeeds was given an offset inside the file, and
    its next offset lies beyond that offset.  It has read nothing from the
    byte before the next offset on: in the file cut there or later it gives
    the same record; and when the file reaches the next offset, bytes
    appended to the file do not change what it gives. *)
Theorem GetOff_reads_one_record (pq : PQ) (o : Z) (f : string) (k v : bytes)
    (n : Z) :
  GetOff pq o f = Ok (k, v, n) →
  f ∈ PoolFH pq
  ∧ 0 ≤ o < len (content (disk pq) f) ∧ o < n
  ∧ (∀ m : nat, n - 1 ≤ Z.of_nat m →
       GetOff (set_content pq f (take m (content (disk pq) f))) o f
       = Ok (k, v, n))
  ∧ (n ≤ len (content (disk pq) f) →
       ∀ e, GetOff (set_content pq f (content (disk pq) f ++ e)) o f
            = Ok (k, v, n)).
Proof.
  unfold GetOff. case_bool_decide as Hf; [| done]. intros Hd.
  split; [done |].
  destruct (decode_at_advances _ _ _ _ _ Hd) as [Ho Hn].
  split; [done |]. split; [done |].
  assert (∀ c', content (disk (set_content pq f c')) f = c') as Hc.
  { intros c'. unfold content. simpl. by rewrite lookup_insert_eq. }
  split.
  - intros m Hm. rewrite bool_decide_eq_true_2 by done. rewrite Hc.
    by apply decode_at_take.
  - intros Hlen e. rewrite bool_decide_eq_true_2 by done. rewrite Hc.
    by apply decode_at_app.
Qed.

Lemma GetOff_reads_one_record_witness :
  GetOff (set_content demo3 "1" (take 44 (content (disk demo3) "1"))) 22 "1"
  = Ok (list_ascii_of_string "ab", list_ascii_of_string "2", 45).
Proof.
  destruct (GetOff_reads_one_record demo3 22 "1" (list_ascii_of_string "ab")
              (list_ascii_of_string "2") 45 ltac:(by vm_compute))
    as (_ & _ & _ & Hcut & _).
  apply (Hcut 44%nat). lia.
Defined.

(** ** The store as a map *)









Lemma low_share_none : low_share 0 0 = false.
Proof. by vm_compute. Qed.

(** [Start] on a file that is not there, or is empty: the file is there
    afterwards, it is the current one and has a handle, and the index, the
    counts and the keys to reallocate are as before. *)
Lemma Start_empty_file (pq : PQ) (f : string) :
  content (disk pq) f = [] →
  ∃ pq', Start pq f = Some pq'
         ∧ pqFile pq' = f ∧ PoolFH pq' = {[f]} ∪ PoolFH pq
         ∧ Key pq' = Key pq ∧ CountFile pq' = CountFile pq
         ∧ CurOffset pq' = 0 ∧ lastOldKey pq' = lastOldKey pq
         ∧ keysReallocate pq' = keysReallocate pq ∧ MSize pq' = MSize pq
         ∧ is_Some (files (disk pq') !! f)
         ∧ (∀ g, content (disk pq') g = content (disk pq) g)
         ∧ bkp (disk pq') = bkp (disk pq) ∧ faults (disk pq') = faults (disk pq).
Proof.
  intros Hc.
  assert (∀ g, content (disk (Open (set_File pq f))) g = content (disk pq) g)
    as Hg.
  { intros g. unfold content, Open in *. simpl.
    destruct (files (disk pq) !! f) eqn:Hf; [done |]. simpl.
    destruct (decide (f = g)) as [<- | Hne].
    - by rewrite lookup_insert_eq, Hf.
    - by rewrite lookup_insert_ne. }
  eexists. split.
  - apply (Start_complete pq f [] 0 EOF); [constructor |].
    apply decode_at_past_end. rewrite Hg, Hc. done.
  - unfold start_result. simpl. unfold active_keys.
    rewrite map_to_list_empty.
    change (low_share _ 0) with (low_share 0 0). rewrite low_share_none.
    repeat (split; [done |]).
    split; [| split; [exact Hg | by destruct (files (disk pq) !! f)]].
    destruct (files (disk pq) !! f) eqn:Hf; simpl; [by rewrite Hf |].
    by rewrite lookup_insert_eq.
Qed.


(** X4.  [New] on a directory without files returns a store that holds the
    empty map: the file "1" is created empty and is the current file, the
    index is empty and [CurOffset] is 0. *)
Theorem New_on_empty_directory (d : Disk) :
  files d = ∅ →
  ∃ pq, New d = Ok pq ∧ holds pq ∅
        ∧ pqFile pq = "1" ∧ Key pq = ∅ ∧ CurOffset pq = 0
        ∧ (∀ g, content (disk pq) g = []).
Proof.
  intros Hd. unfold New, ReadDir. rewrite Hd, map_to_list_empty. simpl.
  assert (∀ g, content (disk (initPQ d)) g = []) as Hc
    by (intros g; unfold content; simpl; by rewrite Hd).
  destruct (Start_empty_file (initPQ d) "1" (Hc "1"))
    as (pq1 & -> & HF & HP & HK & HC & HO & _ & HR & _ & Hin & Hg & _).
  unfold Reallocate. rewrite HR. simpl.
  unfold checkGarbage, garbage_of. simpl. rewrite HC. simpl.
  rewrite map_to_list_empty. simpl.
  eexists. split; [done |]. simpl.
  split; [| split; [done |]; split; [done |]; split; [done |]].
  - split; [simpl; rewrite HF, HP; set_solver |].
    split; [simpl; by rewrite HO, HF, Hg, Hc |].
    intros k. simpl. by rewrite HK, lookup_empty.
  - intros g. by rewrite Hg, Hc.
Qed.

Lemma New_on_empty_directory_witness :
  ∃ pq, New empty_disk = Ok pq ∧ holds pq ∅
        ∧ pqFile pq = "1" ∧ Key pq = ∅ ∧ CurOffset pq = 0
        ∧ (∀ g, content (disk pq) g = []).
Proof. apply (New_on_empty_directory empty_disk). reflexivity. Defined.









(** ** The garbage pass *)

Lemma elem_of_garbage_of (pq : PQ) (k : string) :
  k ∈ garbage_of pq ↔ k ≠ pqFile pq ∧ CountFile pq !! k = Some 0.
Proof.
  unfold garbage_of. rewrite list_elem_of_fmap. split.
  - intros ([k' v] & -> & [[Hk Hv] Hin]%list_elem_of_filter).
    apply elem_of_map_to_list in Hin. simpl in *. by subst v.
  - intros [Hk Hv]. exists (k, 0). split; [done |].
    apply list_elem_of_filter. split; [done |]. by apply elem_of_map_to_list.
Qed.

(** What collecting the files of a list does, file by file. *)
Lemma collect_all_spec (ks : list string) : ∀ pq,
  let pq' := foldl collect pq ks in
  Key pq' = Key pq ∧ pqFile pq' = pqFile pq ∧ CurOffset pq' = CurOffset pq
  ∧ MSize pq' = MSize pq ∧ keysReallocate pq' = keysReallocate pq
  ∧ ∀ k,
      (k ∈ ks →
         CountFile pq' !! k = None ∧ k ∉ PoolFH pq'
         ∧ files (disk pq') !! k = None
         ∧ bkp (disk pq') !! k
           = match files (disk pq) !! k with
             | Some c => Some c
             | None => bkp (disk pq) !! k
             end)
      ∧ (k ∉ ks →
           CountFile pq' !! k = CountFile pq !! k
           ∧ (k ∈ PoolFH pq' ↔ k ∈ PoolFH pq)
           ∧ files (disk pq') !! k = files (disk pq) !! k
           ∧ bkp (disk pq') !! k = bkp (disk pq) !! k).
Proof.
  induction ks as [|k0 ks IH]; intros pq; simpl.
  - repeat (split; [done |]). intros k. split; [by intros ?%elem_of_nil |].
    done.
  - destruct (IH (collect pq k0)) as (HK & HF & HO & HM & HR & Hk).
    repeat (split; [by (rewrite ?HK, ?HF, ?HO, ?HM, ?HR) |]).
    assert (∀ k, files (disk (collect pq k0)) !! k
                 = if decide (k = k0) then None else files (disk pq) !! k)
      as Hfiles.
    { intros k. unfold collect, move_to_bkp. simpl.
      destruct (files (disk pq) !! k0) eqn:H0; simpl; case_decide; subst;
        rewrite ?lookup_delete_eq, ?lookup_delete_ne by done; done. }
    assert (∀ k, bkp (disk (collect pq k0)) !! k
                 = if decide (k = k0)
                   then match files (disk pq) !! k0 with
                        | Some c => Some c
                        | None => bkp (disk pq) !! k0
                        end
                   else bkp (disk pq) !! k) as Hbkp.
    { intros k. unfold collect, move_to_bkp. simpl.
      destruct (files (disk pq) !! k0) eqn:H0; simpl; case_decide; subst;
        rewrite ?lookup_insert_eq, ?lookup_insert_ne by done; done. }
    intros k. destruct (Hk k) as [Hin Hout].
    destruct (decide (k ∈ ks)) as [Hks | Hks].
    + split; [| intros Hn; exfalso; apply Hn; by right].
      intros _. destruct (Hin Hks) as (H1 & H2 & H3 & H4).
      repeat (split; [done |]). rewrite H4, Hfiles, Hbkp.
      case_decide; [by subst | done].
    + destruct (Hout Hks) as (H1 & H2 & H3 & H4). split.
      * intros [-> | Hin']%elem_of_cons; [| done].
        rewrite H1, H2, H3, H4, Hfiles, Hbkp. simpl.
        rewrite lookup_delete_eq. rewrite !decide_True by done.
        split; [done |]. split; [set_solver |]. done.
      * intros [Hne Hn]%not_elem_of_cons.
        rewrite H1, H2, H3, H4, Hfiles, Hbkp. simpl.
        rewrite lookup_delete_ne by done. rewrite !decide_False by done.
        split; [done |]. split; [set_solver |]. done.
Qed.

(** X6.  A garbage pass leaves the index, the current file and [CurOffset]
    alone.  Every file other than the current one whose count is 0 loses its
    counter and its handle and is moved, with its bytes, into the backup
    folder; every other file, and first of all the current one, keeps its
    counter, its handle and its place.  A second pass right after changes
    nothing. *)
Theorem checkGarbage_spec (pq : PQ) :
  Key (checkGarbage pq) = Key pq
  ∧ pqFile (checkGarbage pq) = pqFile pq
  ∧ CurOffset (checkGarbage pq) = CurOffset pq
  ∧ (∀ k, k ≠ pqFile pq → CountFile pq !! k = Some 0 →
       CountFile (checkGarbage pq) !! k = None
       ∧ k ∉ PoolFH (checkGarbage pq)
       ∧ files (disk (checkGarbage pq)) !! k = None
       ∧ ∀ c, files (disk pq) !! k = Some c →
              bkp (disk (checkGarbage pq)) !! k = Some c)
  ∧ (∀ k, k = pqFile pq ∨ CountFile pq !! k ≠ Some 0 →
       CountFile (checkGarbage pq) !! k = CountFile pq !! k
       ∧ (k ∈ PoolFH (checkGarbage pq) ↔ k ∈ PoolFH pq)
       ∧ files (disk (checkGarbage pq)) !! k = files (disk pq) !! k
       ∧ bkp (disk (checkGarbage pq)) !! k = bkp (disk pq) !! k)
  ∧ checkGarbage (checkGarbage pq) = checkGarbage pq.
Proof.
  destruct (collect_all_spec (garbage_of pq) pq) as (HK & HF & HO & _ & _ & Hk).
  fold (checkGarbage pq) in *.
  split; [done |]. split; [done |]. split; [done |].
  assert (∀ k, k = pqFile pq ∨ CountFile pq !! k ≠ Some 0 →
               CountFile (checkGarbage pq) !! k = CountFile pq !! k
               ∧ (k ∈ PoolFH (checkGarbage pq) ↔ k ∈ PoolFH pq)
               ∧ files (disk (checkGarbage pq)) !! k = files (disk pq) !! k
               ∧ bkp (disk (checkGarbage pq)) !! k = bkp (disk pq) !! k)
    as Hkeep.
  { intros k Hcase. apply (Hk k). rewrite elem_of_garbage_of.
    intros [Hne H0]. by destruct Hcase. }
  split; [| split; [exact Hkeep |]].
  - intros k Hne H0.
    destruct (proj1 (Hk k) ltac:(by apply elem_of_garbage_of))
      as (H1 & H2 & H3 & H4).
    repeat (split; [done |]). intros c Hc. by rewrite H4, Hc.
  - unfold checkGarbage at 1.
    assert (garbage_of (checkGarbage pq) = []) as ->; [| done].
    apply elem_of_nil_inv. intros k [Hne H0]%elem_of_garbage_of.
    rewrite HF in Hne.
    destruct (decide (CountFile pq !! k = Some 0)) as [Hz | Hnz].
    + destruct (proj1 (Hk k) ltac:(by apply elem_of_garbage_of)) as (H1 & _).
      by rewrite H1 in H0.
    + destruct (Hkeep k ltac:(by right)) as (H1 & _). by rewrite H1 in H0.
Qed.

Lemma checkGarbage_spec_witness :
  CountFile (checkGarbage demo_moved) !! "1" = None
  ∧ "1" ∉ PoolFH (checkGarbage demo_moved)
  ∧ files (disk (checkGarbage demo_moved)) !! "1" = None
  ∧ bkp (disk (checkGarbage demo_moved)) !! "1"
    = Some (content (disk demo_moved) "1").
Proof.
  destruct (checkGarbage_spec demo_moved) as (_ & _ & _ & Hgo & _).
  destruct (Hgo "1" ltac:(by vm_compute) ltac:(by vm_compute))
    as (H1 & H2 & H3 & H4).
  repeat (split; [done |]). apply H4. by vm_compute.
Defined.

(** ** Counts, handles and the index, file by file *)

Definition one_if (P : Prop) `{Decision P} : Z := if decide P then 1 else 0.

Lemma live_in_delete (idx : gmap string Rec) (k f : string) (r : Rec) :
  idx !! k = Some r →
  live_in (delete k idx) f = live_in idx f - one_if (File r = f).
Proof.
  intros Hk. unfold live_in, one_if. rewrite map_filter_delete.
  case_decide as Hf.
  - assert (filter (λ kr : string * Rec, File kr.2 = f) idx !! k = Some r)
      as Hin by (by apply map_lookup_filter_Some).
    pose proof (map_size_delete_Some k _ ltac:(by rewrite Hin)) as Hs.
    assert (size (filter (λ kr : string * Rec, File kr.2 = f) idx) ≠ 0%nat).
    { intros H0%map_size_empty_iff. by rewrite H0, lookup_empty in Hin. }
    lia.
  - rewrite delete_id; [lia |].
    apply map_lookup_filter_None. right. intros r' Hr'. simpl.
    rewrite Hk in Hr'. by injection Hr' as <-.
Qed.

Lemma live_in_insert_new (idx : gmap string Rec) (k f : string) (r : Rec) :
  idx !! k = None →
  live_in (<[k := r]> idx) f = live_in idx f + one_if (File r = f).
Proof.
  intros Hk. unfold live_in, one_if. rewrite map_filter_insert. simpl.
  case_decide as Hf.
  - rewrite map_size_insert_None; [lia |].
    apply map_lookup_filter_None. by left.
  - rewrite delete_id by done. lia.
Qed.

Lemma live_in_insert (idx : gmap string Rec) (k f : string) (r0 r : Rec) :
  idx !! k = Some r0 →
  live_in (<[k := r]> idx) f
  = live_in idx f - one_if (File r0 = f) + one_if (File r = f).
Proof.
  intros Hk. rewrite <- insert_delete_eq.
  rewrite live_in_insert_new by apply lookup_delete_eq.
  by rewrite (live_in_delete idx k f r0).
Qed.

Lemma live_in_empty (f : string) : live_in ∅ f = 0.
Proof. unfold live_in. by rewrite map_filter_empty, map_size_empty. Qed.

Lemma live_in_nonneg (idx : gmap string Rec) (f : string) : 0 ≤ live_in idx f.
Proof. unfold live_in. lia. Qed.

(** A file without live entry is the file of no entry. *)
Lemma live_in_zero (idx : gmap string Rec) (f k : string) (r : Rec) :
  live_in idx f = 0 → idx !! k = Some r → File r ≠ f.
Proof.
  unfold live_in. intros H0 Hk Hf.
  assert (size (filter (λ kr : string * Rec, File kr.2 = f) idx) = 0%nat)
    as Hs by lia.
  apply map_size_empty_iff in Hs.
  assert (filter (λ kr : string * Rec, File kr.2 = f) idx !! k = Some r)
    as Hin by (by apply map_lookup_filter_Some).
  by rewrite Hs, lookup_empty in Hin.
Qed.

Lemma count_incr (m : gmap string Z) (k f : string) :
  count (incr k m) f = count m f + one_if (k = f).
Proof.
  unfold incr, count, one_if. case_decide as Hf.
  - subst. rewrite lookup_insert_eq. simpl. lia.
  - rewrite lookup_insert_ne by done. lia.
Qed.

Lemma count_decr (m : gmap string Z) (k f : string) :
  count (decr k m) f = count m f - one_if (k = f).
Proof.
  unfold decr, count, one_if. case_decide as Hf.
  - subst. rewrite lookup_insert_eq. simpl. lia.
  - rewrite lookup_insert_ne by done. lia.
Qed.

Lemma put_record_counted (pq : PQ) (key : string) (data : option bytes)
    (pq' : PQ) (err : option error) :
  counted pq → put_record pq key data = Some (pq', err) → counted pq'.
Proof.
  unfold counted, put_record. intros Hinv.
  destruct data as [v |], (Key pq !! key) as [r |] eqn:Hk;
    try (intros [= <- <-]; exact Hinv);
    (case_bool_decide; [| done]);
    destruct (file_write _ _ _) as [d [e |]]; intros [= <- <-]; simpl;
    try exact Hinv; intros f.
  - rewrite count_incr, count_decr, (live_in_insert _ _ _ r), Hinv by done.
    done.
  - rewrite count_incr, live_in_insert_new, Hinv by done. done.
  - rewrite count_decr, (live_in_delete _ _ _ r), Hinv by done. done.
Qed.

Lemma put_record_handled (pq : PQ) (key : string) (data : option bytes)
    (pq' : PQ) (err : option error) :
  handled pq → put_record pq key data = Some (pq', err) → handled pq'.
Proof.
  unfold handled, put_record. intros [Hcur Hinv].
  destruct data as [v |], (Key pq !! key) as [r |] eqn:Hk;
    try (intros [= <- <-]; done);
    (case_bool_decide; [| done]);
    destruct (file_write _ _ _) as [d [e |]]; intros [= <- <-]; simpl;
    try done; (split; [done |]); intros k r'.
  - destruct (decide (k = key)) as [-> | Hne].
    + rewrite lookup_insert_eq. by intros [= <-].
    + rewrite lookup_insert_ne by done. apply Hinv.
  - destruct (decide (k = key)) as [-> | Hne].
    + rewrite lookup_insert_eq. by intros [= <-].
    + rewrite lookup_insert_ne by done. apply Hinv.
  - destruct (decide (k = key)) as [-> | Hne].
    + by rewrite lookup_delete_eq.
    + rewrite lookup_delete_ne by done. apply Hinv.
Qed.



Lemma Put_counted_handled (pq : PQ) (key : string) (d : slice) (pq' : PQ)
    (err : option error) :
  counted pq ∧ handled pq → Put pq key d = Some (pq', err) →
  counted pq' ∧ handled pq'.
Proof.
  unfold Put. intros [Hc Hh]. case_bool_decide; [by intros [= <- <-] |].
  destruct (moves_away pq key (shrinkByteSlice d)).
  - destruct (put_record pq key None) as [[pq1 e1] |] eqn:H1; [| done].
    cbn [fmap option_fmap option_map fst mbind option_bind]. intros H2.
    split.
    + eapply put_record_counted; [| exact H2]. by eapply put_record_counted.
    + eapply put_record_handled; [| exact H2]. by eapply put_record_handled.
  - cbn [mbind option_bind]. intros H2. split.
    + by eapply put_record_counted.
    + by eapply put_record_handled.
Qed.

Lemma scan_record_counted (f : string) (s : Scan) (key data : bytes) (o : Z) :
  (∀ g, count (countF s) g = live_in (memkey s) g) →
  ∀ g, count (countF (scan_record f s key data o)) g
       = live_in (memkey (scan_record f s key data o)) g.
Proof.
  intros Hinv g. unfold scan_record.
  destruct (0 <? len data), (memkey s !! string_of_list_ascii key) as [r |] eqn:Hk;
    simpl; try apply Hinv.
  - rewrite count_incr, count_decr, (live_in_insert _ _ _ r), Hinv by done.
    done.
  - rewrite count_incr, live_in_insert_new, Hinv by done. done.
  - rewrite count_decr, (live_in_delete _ _ _ r), Hinv by done. done.
Qed.

Lemma scan_record_handled (P : gset string) (f : string) (s : Scan)
    (key data : bytes) (o : Z) :
  f ∈ P → (∀ k r, memkey s !! k = Some r → File r ∈ P) →
  ∀ k r, memkey (scan_record f s key data o) !! k = Some r → File r ∈ P.
Proof.
  intros Hf Hinv k r. unfold scan_record.
  destruct (0 <? len data), (memkey s !! string_of_list_ascii key) as [r0 |] eqn:Hk;
    simpl; try apply Hinv;
    (destruct (decide (k = string_of_list_ascii key)) as [-> | Hne];
     [rewrite ?lookup_insert_eq, ?lookup_delete_eq; by intros [= <-]
     | rewrite ?lookup_insert_ne, ?lookup_delete_ne by done; apply Hinv]).
Qed.

Lemma replay_counted_handled (P : gset string) (f : string)
    (recs : list (bytes * bytes * Z)) : ∀ s,
  f ∈ P →
  (∀ g, count (countF s) g = live_in (memkey s) g) →
  (∀ k r, memkey s !! k = Some r → File r ∈ P) →
  (∀ g, count (countF (replay f s recs)) g = live_in (memkey (replay f s recs)) g)
  ∧ (∀ k r, memkey (replay f s recs) !! k = Some r → File r ∈ P).
Proof.
  induction recs as [|[[k v] n] recs IH]; intros s Hf Hc Hh; [done |].
  simpl. apply IH; [done | by apply scan_record_counted |].
  by apply scan_record_handled.
Qed.

Lemma Start_counted_handled (pq : PQ) (f : string) (pq' : PQ) :
  counted pq ∧ handled pq → Start pq f = Some pq' →
  counted pq' ∧ handled pq'.
Proof.
  intros [Hc [Hcur Hh]] HS.
  destruct (Start_sound _ _ _ HS) as (recs & _ & _ & ->).
  destruct (replay_counted_handled ({[f]} ∪ PoolFH pq) f recs
              (scan_init (Open (set_File pq f)))) as [Hc' Hh'].
  - set_solver.
  - exact Hc.
  - intros k r Hk. simpl in Hk. specialize (Hh k r Hk). set_solver.
  - split; [exact Hc' |]. split; [simpl; set_solver | exact Hh'].
Qed.

Lemma checkNewBlock_counted_handled (pq pq' : PQ) :
  counted pq ∧ handled pq → checkNewBlock pq = Some pq' →
  counted pq' ∧ handled pq'.
Proof.
  unfold checkNewBlock. intros Hinv.
  destruct (_ <? _); [by apply Start_counted_handled | by intros [= <-]].
Qed.

Lemma checkGarbage_counted_handled (pq : PQ) :
  counted pq ∧ handled pq →
  counted (checkGarbage pq) ∧ handled (checkGarbage pq).
Proof.
  intros [Hc [Hcur Hh]].
  destruct (collect_all_spec (garbage_of pq) pq) as (HK & HF & _ & _ & _ & Hk).
  fold (checkGarbage pq) in *.
  assert (∀ k, k ≠ pqFile pq → CountFile pq !! k = Some 0 →
               CountFile (checkGarbage pq) !! k = None) as Hgo.
  { intros k Hne H0. by apply (Hk k), elem_of_garbage_of. }
  assert (∀ k, k = pqFile pq ∨ CountFile pq !! k ≠ Some 0 →
               CountFile (checkGarbage pq) !! k = CountFile pq !! k
               ∧ (k ∈ PoolFH (checkGarbage pq) ↔ k ∈ PoolFH pq)) as Hkeep.
  { intros k Hcase.
    destruct (proj2 (Hk k)) as (H1 & H2 & _); [| done].
    rewrite elem_of_garbage_of. intros [Hne H0]. by destruct Hcase. }
  split.
  - intros f. rewrite HK, <- Hc. unfold count.
    destruct (decide (f ≠ pqFile pq ∧ CountFile pq !! f = Some 0))
      as [[Hne H0] | Hn].
    + rewrite (Hgo f Hne H0). by rewrite H0.
    + destruct (Hkeep f) as [-> _]; [| done].
      destruct (decide (f = pqFile pq)); [by left | right]. tauto.
  - split.
    + rewrite HF. by apply (Hkeep (pqFile pq)); [left |].
    + intros k r. rewrite HK. intros Hkr.
      apply (Hkeep (File r)); [| by eapply Hh].
      right. intros H0.
      apply (live_in_zero (Key pq) (File r) k r); [| done | done].
      rewrite <- Hc. unfold count. by rewrite H0.
Qed.

Lemma clear_counted_handled (pq : PQ) :
  counted pq ∧ handled pq →
  counted (clear_keysReallocate pq) ∧ handled (clear_keysReallocate pq).
Proof. done. Qed.

Lemma MaxSize_counted_handled (pq : PQ) (m : Z) :
  counted pq ∧ handled pq → counted (MaxSize pq m) ∧ handled (MaxSize pq m).
Proof. done. Qed.

Lemma reallocate_key_counted_handled (pq : PQ) (key : string) (pq' : PQ)
    (err : option error) :
  counted pq ∧ handled pq → reallocate_key pq key = Some (pq', err) →
  counted pq' ∧ handled pq'.
Proof.
  unfold reallocate_key. intros Hinv.
  destruct (Key pq !! key) as [r |]; [| by intros [= <- <-]].
  case_bool_decide; [| by intros [= <- <-]].
  destruct (Get pq key) as [rec | e |]; [| by intros [= <- <-] | done].
  destruct (Put pq key (mk_slice rec 0)) as [[pq1 [e |]] |] eqn:HP;
    cbn [mbind option_bind]; [| | done].
  - intros [= <- <-]. by eapply Put_counted_handled.
  - destruct (checkNewBlock pq1) as [pq2 |] eqn:HN; [| done].
    cbn [mbind option_bind]. intros [= <- <-].
    eapply checkNewBlock_counted_handled; [| exact HN].
    by eapply Put_counted_handled.
Qed.

Lemma reallocate_loop_counted_handled (keys : list string) : ∀ pq pq' err,
  counted pq ∧ handled pq → reallocate_loop pq keys = Some (pq', err) →
  counted pq' ∧ handled pq'.
Proof.
  induction keys as [|key keys IH]; intros pq pq' err Hinv; simpl.
  - by intros [= <- <-].
  - destruct (reallocate_key pq key) as [[pq1 [e |]] |] eqn:H1;
      cbn [mbind option_bind]; [| | done].
    + intros [= <- <-]. by eapply reallocate_key_counted_handled.
    + apply IH. by eapply reallocate_key_counted_handled.
Qed.

Lemma Reallocate_counted_handled (pq pq' : PQ) (err : option error) :
  counted pq ∧ handled pq → Reallocate pq = Some (pq', err) →
  counted pq' ∧ handled pq'.
Proof.
  unfold Reallocate. intros Hinv.
  destruct (reallocate_loop pq (keysReallocate pq)) as [[pq1 [e |]] |] eqn:H1;
    cbn [mbind option_bind]; [| | done]; intros [= <- <-].
  - by eapply reallocate_loop_counted_handled.
  - apply checkGarbage_counted_handled, clear_counted_handled.
    by eapply reallocate_loop_counted_handled.
Qed.

Lemma start_all_counted_handled (names : list string) : ∀ pq pq',
  counted pq ∧ handled pq → start_all pq names = Some pq' →
  counted pq' ∧ handled pq'.
Proof.
  induction names as [|f names IH]; intros pq pq' Hinv; simpl.
  - by intros [= <-].
  - destruct (Start pq f) as [pq1 |] eqn:H1; [| done].
    cbn [mbind option_bind]. apply IH. by eapply Start_counted_handled.
Qed.

(** [Start] opens its file before anything else, so it needs no handle to
    begin with. *)
Lemma Start_opens (pq : PQ) (f : string) (pq' : PQ) :
  counted pq → (∀ k r, Key pq !! k = Some r → File r ∈ PoolFH pq) →
  Start pq f = Some pq' → counted pq' ∧ handled pq'.
Proof.
  intros Hc Hh HS.
  destruct (Start_sound _ _ _ HS) as (recs & _ & _ & ->).
  destruct (replay_counted_handled ({[f]} ∪ PoolFH pq) f recs
              (scan_init (Open (set_File pq f)))) as [Hc' Hh'].
  - set_solver.
  - exact Hc.
  - intros k r Hk. simpl in Hk. specialize (Hh k r Hk). set_solver.
  - split; [exact Hc' |]. split; [simpl; set_solver | exact Hh'].
Qed.

Lemma New_counted_handled (d : Disk) (pq : PQ) :
  New d = Ok pq → counted pq ∧ handled pq.
Proof.
  unfold New.
  assert (counted (initPQ d)) as Hc0.
  { intros f. simpl. by rewrite live_in_empty. }
  assert (∀ k r, Key (initPQ d) !! k = Some r → File r ∈ PoolFH (initPQ d))
    as Hh0 by done.
  assert (∀ pq1, match filter (λ f, f ≠ BKPFOLDER) (ReadDir d) with
                 | [] => Start (initPQ d) "1"
                 | _ => start_all (initPQ d)
                          (filter (λ f, f ≠ BKPFOLDER) (ReadDir d))
                 end = Some pq1 → counted pq1 ∧ handled pq1) as H1.
  { intros pq1. destruct (filter _ (ReadDir d)) as [|f names].
    - by apply Start_opens.
    - simpl. destruct (Start (initPQ d) f) as [pq0 |] eqn:HS; [| done].
      cbn [mbind option_bind]. apply start_all_counted_handled.
      by eapply Start_opens. }
  destruct (match filter _ (ReadDir d) with [] => _ | _ => _ end)
    as [pq1 |]; [| done].
  destruct (Reallocate pq1) as [[pq2 [e |]] |] eqn:HR; [done | | done].
  intros [= <-]. eapply Reallocate_counted_handled; [| exact HR]. by apply H1.
Qed.

Lemma reachable_counted_handled (pq : PQ) :
  reachable pq → counted pq ∧ handled pq.
Proof.
  induction 1 as [d pq HN | pq key data pq' err _ IH HP | pq f pq' _ IH HS
                 | pq pq' _ IH HR | pq pq' err _ IH HR | pq _ IH | pq m _ IH].
  - by eapply New_counted_handled.
  - by eapply Put_counted_handled.
  - by eapply Start_counted_handled.
  - by eapply checkNewBlock_counted_handled.
  - by eapply Reallocate_counted_handled.
  - by apply checkGarbage_counted_handled.
  - by apply MaxSize_counted_handled.
Qed.

Lemma reachable_demo0 : reachable demo0.
Proof. apply (reach_New empty_disk). by vm_compute. Qed.

Lemma reachable_demo3 : reachable demo3.
Proof.
  eapply (reach_Put _ "b" (bs "3") _ None);
    [eapply (reach_Put _ "ab" (bs "2") _ None);
       [eapply (reach_Put _ "a" (bs "1") _ None);
          [exact reachable_demo0 |] |] |];
    by vm_compute.
Qed.

Lemma reachable_demo_rotated : reachable demo_rotated.
Proof.
  eapply (reach_Rotate (MaxSize (after demo0 (Put demo0 "k" (bs "v"))) 1));
    [| by vm_compute].
  apply reach_MaxSize.
  eapply (reach_Put _ "k" (bs "v") _ None); [exact reachable_demo0 |].
  by vm_compute.
Qed.

Lemma reachable_demo_moved : reachable demo_moved.
Proof.
  eapply (reach_Put _ "k" (bs "w") _ None); [exact reachable_demo_rotated |].
  by vm_compute.
Qed.

(** X7.  In every state the store reaches from [New] by [Put], [Start], the
    rotation, [Reallocate], the garbage pass and [MaxSize], the counter of
    each file is the number of keys of the index whose record lies in that
    file (0 for a file without counter), whatever writes failed on the way. *)
Theorem counts_are_live_entries (pq : PQ) (f : string) :
  reachable pq → count (CountFile pq) f = live_in (Key pq) f.
Proof. intros Hr. by apply reachable_counted_handled. Qed.

Lemma counts_are_live_entries_witness :
  count (CountFile demo_moved) "1" = live_in (Key demo_moved) "1"
  ∧ count (CountFile demo_moved) "2" = 1.
Proof.
  split.
  - apply (counts_are_live_entries demo_moved "1"), reachable_demo_moved.
  - by vm_compute.
Defined.



(** X9.  A garbage pass loses no key: in every state the store reaches,
    [Get] of any key returns after the pass what it returned before.  The
    only files moved away are files in which no record of the index lies. *)
Theorem checkGarbage_keeps_live_records (pq : PQ) (k : string) :
  reachable pq →
  Get (checkGarbage pq) k = Get pq k
  ∧ ∀ r, Key pq !! k = Some r →
         files (disk (checkGarbage pq)) !! File r = files (disk pq) !! File r.
Proof.
  intros Hr. destruct (reachable_counted_handled pq Hr) as [Hc [Hcur Hh]].
  destruct (collect_all_spec (garbage_of pq) pq) as (HK & _ & _ & _ & _ & Hk).
  fold (checkGarbage pq) in *.
  assert (∀ r, Key pq !! k = Some r →
               (File r ∈ PoolFH (checkGarbage pq) ↔ File r ∈ PoolFH pq)
               ∧ files (disk (checkGarbage pq)) !! File r
                 = files (disk pq) !! File r) as Hkeep.
  { intros r Hkr. destruct (proj2 (Hk (File r))) as (_ & H2 & H3 & _); [| done].
    rewrite elem_of_garbage_of. intros [_ H0].
    apply (live_in_zero (Key pq) (File r) k r); [| done | done].
    rewrite <- Hc. unfold count. by rewrite H0. }
  split; [| intros r Hkr; by apply Hkeep].
  unfold Get. rewrite HK. destruct (Key pq !! k) as [r |] eqn:Hkr; [| done].
  destruct (Hkeep r eq_refl) as [HP HF].
  unfold GetOff, content. rewrite HF.
  by rewrite (bool_decide_ext _ _ HP).
Qed.

Lemma checkGarbage_keeps_live_records_witness :
  Get (checkGarbage demo_moved) "k" = Get demo_moved "k"
  ∧ Get demo_moved "k" = Ok (list_ascii_of_string "w").
Proof.
  split.
  - apply (checkGarbage_keeps_live_records demo_moved "k"),
      reachable_demo_moved.
  - by vm_compute.
Defined.

(** ** What [Start] queues for reallocation *)

Lemma replay_snoc (f : string) (s : Scan) (recs : list (bytes * bytes * Z))
    (k v : bytes) (n : Z) :
  replay f s (recs ++ [(k, v, n)]) = scan_record f (replay f s recs) k v n.
Proof. unfold replay. by rewrite foldl_app. Qed.

Lemma replay_total_keys (f : string) (recs : list (bytes * bytes * Z)) : ∀ s,
  total_keys (replay f s recs) = total_keys s + puts_in recs.
Proof.
  unfold puts_in.
  induction recs as [|[[k v] n] recs IH]; intros s; simpl; [lia |].
  fold (replay f (scan_record f s k v n) recs). rewrite IH.
  rewrite filter_cons. simpl. unfold scan_record.
  destruct (Z.ltb_spec 0 (len v)).
  - rewrite decide_True by done. simpl length. simpl total_keys. lia.
  - rewrite decide_False by lia.
    destruct (memkey s !! string_of_list_ascii k); simpl; lia.
Qed.

(** The keys marked true are the keys whose entry points into the file
    under scan, when no entry did as the scan began. *)
Lemma replay_block_keys (f : string) (recs : list (bytes * bytes * Z)) : ∀ s,
  (∀ k, block_keys s !! k = Some true
        ↔ ∃ r, memkey s !! k = Some r ∧ File r = f) →
  ∀ k, block_keys (replay f s recs) !! k = Some true
       ↔ ∃ r, memkey (replay f s recs) !! k = Some r ∧ File r = f.
Proof.
  induction recs as [|[[k0 v] n] recs IH]; intros s Hinv; [done |].
  simpl. fold (replay f (scan_record f s k0 v n) recs). apply IH.
  intros k. unfold scan_record.
  destruct (0 <? len v); simpl.
  - destruct (decide (k = string_of_list_ascii k0)) as [-> | Hne].
    + rewrite !lookup_insert_eq. split; [eauto | done].
    + rewrite !lookup_insert_ne by done. apply Hinv.
  - destruct (memkey s !! string_of_list_ascii k0) as [r0 |] eqn:H0; simpl;
      [| apply Hinv].
    destruct (decide (k = string_of_list_ascii k0)) as [-> | Hne].
    + rewrite lookup_insert_eq, lookup_delete_eq. split; [done |].
      by intros (r & Hr & _).
    + rewrite lookup_insert_ne, lookup_delete_ne by done. apply Hinv.
Qed.

Lemma NoDup_active_keys (block : gmap string bool) : NoDup (active_keys block).
Proof.
  unfold active_keys.
  pose proof (NoDup_fst_map_to_list block) as Hnd.
  induction (map_to_list block) as [|[k b] l IH]; [constructor |].
  rewrite filter_cons. simpl in *. apply NoDup_cons in Hnd as [Hk Hnd].
  case_decide; [| by apply IH]. simpl. apply NoDup_cons. split; [| by apply IH].
  intros Hin. apply Hk. apply list_elem_of_fmap in Hin as ([k' b'] & -> & Hin).
  apply list_elem_of_filter in Hin as [_ Hin].
  apply list_elem_of_fmap. by exists (k', b').
Qed.

Lemma elem_of_active_keys (block : gmap string bool) (k : string) :
  k ∈ active_keys block ↔ block !! k = Some true.
Proof.
  unfold active_keys. rewrite list_elem_of_fmap. split.
  - intros ([k' b] & -> & [Hb Hin]%list_elem_of_filter).
    apply elem_of_map_to_list in Hin. simpl in *. by subst b.
  - intros Hk. exists (k, true). split; [done |].
    apply list_elem_of_filter. split; [done |]. by apply elem_of_map_to_list.
Qed.

Lemma NoDup_live_keys (idx : gmap string Rec) (f : string) :
  NoDup (live_keys idx f).
Proof. apply NoDup_fst_map_to_list. Qed.

Lemma elem_of_live_keys (idx : gmap string Rec) (f k : string) :
  k ∈ live_keys idx f ↔ ∃ r, idx !! k = Some r ∧ File r = f.
Proof.
  unfold live_keys. rewrite list_elem_of_fmap. split.
  - intros ([k' r] & -> & Hin). apply elem_of_map_to_list in Hin.
    apply map_lookup_filter_Some in Hin as [Hk Hf]. by exists r.
  - intros (r & Hk & Hf). exists (k, r). split; [done |].
    apply elem_of_map_to_list. by apply map_lookup_filter_Some.
Qed.

Lemma length_live_keys (idx : gmap string Rec) (f : string) :
  Z.of_nat (length (live_keys idx f)) = live_in idx f.
Proof.
  unfold live_keys, live_in. by rewrite length_fmap, length_map_to_list.
Qed.

Lemma all_from_spec (p : Z → bool) (n : nat) : ∀ z i,
  all_from z n p = true → z ≤ i < z + Z.of_nat n → p i = true.
Proof.
  induction n as [|n IH]; intros z i Hall Hi; [lia |].
  simpl in Hall. apply andb_true_iff in Hall as [Hz Hall].
  destruct (decide (i = z)) as [-> | Hne]; [done |].
  apply (IH (z + 1)); [done | lia].
Qed.

(** Up to a thousand keys and records the test on the quotient of the two
    [float64] is the test on the quotient taken exactly. *)
Lemma low_share_small (a t : Z) :
  0 ≤ a ≤ 1000 → 0 ≤ t ≤ 1000 →
  low_share a t = (0 <? t) && (10 * a <? t).
Proof.
  intros Ha Ht.
  assert (tenth_agrees 1001 = true) as Hall by (vm_compute; reflexivity).
  apply (all_from_spec _ _ 0 t) in Hall; [| lia].
  apply (all_from_spec _ _ 0 a) in Hall; [| lia].
  by apply Bool.eqb_prop.
Qed.

(** X10.  What [Start] queues.  When no entry of the index lies in the file
    as the scan begins (as in [New], which scans each file once, and in a
    rotation to a new file), then at the end of the scan the keys marked
    active are the keys whose entry lies in the file; [total_keys] is the
    number of records with data that were read, a key written twice counting
    twice; and these keys are appended to [keysReallocate], in some order,
    when [float64(active) / float64(total) < 0.1], and nothing is appended
    otherwise.  With no record with data in the file the quotient is no
    number and nothing is appended; with at most a thousand records and
    keys the test holds exactly when there is a record with data and ten
    times the active keys are fewer than the records with data. *)
Theorem Start_queues_live_keys (pq : PQ) (f : string) (pq' : PQ) :
  (∀ k r, Key pq !! k = Some r → File r ≠ f) →
  Start pq f = Some pq' →
  ∃ recs queued,
    decodes (content (disk (Open (set_File pq f))) f) 0 recs (CurOffset pq')
    ∧ keysReallocate pq' = keysReallocate pq ++ queued
    ∧ (if low_share (live_in (Key pq') f) (puts_in recs)
       then queued ≡ₚ live_keys (Key pq') f
       else queued = [])
    ∧ (puts_in recs = 0 → queued = [])
    ∧ (puts_in recs ≤ 1000 → live_in (Key pq') f ≤ 1000 →
       (low_share (live_in (Key pq') f) (puts_in recs) = true
        ↔ 0 < puts_in recs ∧ 10 * live_in (Key pq') f < puts_in recs)).
Proof.
  intros Hfresh HS.
  destruct (Start_sound _ _ _ HS) as (recs & Hrecs & _ & Hpq').
  set (pq1 := Open (set_File pq f)) in *.
  set (s := replay f (scan_init pq1) recs) in *.
  assert (total_keys s = puts_in recs) as Htot.
  { unfold s. by rewrite replay_total_keys. }
  assert (active_keys (block_keys s) ≡ₚ live_keys (Key pq') f) as Hperm.
  { apply NoDup_Permutation;
      [apply NoDup_active_keys | apply NoDup_live_keys |].
    intros k. rewrite elem_of_active_keys, elem_of_live_keys.
    rewrite Hpq'. simpl. apply replay_block_keys.
    intros k'. simpl. rewrite lookup_empty. split; [done |].
    intros (r & Hr & Hf). by destruct (Hfresh k' r Hr). }
  assert (Z.of_nat (length (active_keys (block_keys s)))
          = live_in (Key pq') f) as Hlen.
  { by rewrite Hperm, length_live_keys. }
  assert (puts_in recs = 0 → live_in (Key pq') f = 0) as Hnone.
  { intros H0. rewrite <- Hlen. rewrite Hperm.
    destruct (live_keys (Key pq') f) as [|k l] eqn:Hl; [done |].
    exfalso.
    assert (k ∈ active_keys (block_keys s)) as Hin by (rewrite Hperm; left).
    apply elem_of_active_keys in Hin.
    assert (∀ recs' s0, puts_in recs' = 0 →
              block_keys (replay f s0 recs') !! k = Some true →
              block_keys s0 !! k = Some true) as Hb.
    { clear. unfold puts_in.
      induction recs' as [|[[k0 v] n] recs' IH]; intros s0 H0; [done |].
      simpl. fold (replay f (scan_record f s0 k0 v n) recs').
      rewrite filter_cons in H0. simpl in H0.
      case_decide as Hv; [done |]. intros Hk. apply IH in Hk; [| done].
      unfold scan_record in Hk. destruct (Z.ltb_spec 0 (len v)); [lia |].
      destruct (memkey s0 !! string_of_list_ascii k0); [| done].
      simpl in Hk. destruct (decide (k = string_of_list_ascii k0)) as [-> |].
      - by rewrite lookup_insert_eq in Hk.
      - by rewrite lookup_insert_ne in Hk. }
    by apply (Hb recs (scan_init pq1)) in Hin. }
  exists recs.
  exists (if low_share (live_in (Key pq') f) (puts_in recs)
          then active_keys (block_keys s) else []).
  split; [done |]. split.
  - rewrite Hpq' at 1. simpl keysReallocate. fold s.
    rewrite Hlen, Htot. destruct (low_share _ _); [done |].
    by rewrite app_nil_r.
  - split; [by destruct (low_share _ _) |]. split.
    + intros H0. rewrite H0, (Hnone H0). by rewrite low_share_none.
    + intros Hp Hl. pose proof (live_in_nonneg (Key pq') f).
      assert (0 ≤ puts_in recs) by (unfold puts_in; lia).
      rewrite low_share_small by lia.
      rewrite andb_true_iff, !Z.ltb_lt. done.
Qed.

Lemma Start_queues_live_keys_witness :
  keysReallocate crowded = ["a"]
  ∧ ∃ recs queued,
      decodes (content (disk (Open (set_File (initPQ crowded_disk) "1"))) "1")
        0 recs (CurOffset crowded)
      ∧ keysReallocate crowded = [] ++ queued
      ∧ (if low_share (live_in (Key crowded) "1") (puts_in recs)
         then queued ≡ₚ live_keys (Key crowded) "1"
         else queued = [])
      ∧ (puts_in recs = 0 → queued = [])
      ∧ (puts_in recs ≤ 1000 → live_in (Key crowded) "1" ≤ 1000 →
         (low_share (live_in (Key crowded) "1") (puts_in recs) = true
          ↔ 0 < puts_in recs ∧ 10 * live_in (Key crowded) "1" < puts_in recs)).
Proof.
  split; [by vm_compute |].
  apply (Start_queues_live_keys (initPQ crowded_disk) "1" crowded);
    [done | by vm_compute].
Defined.
